(** * ReachableClasses: a shallow embedding of libredex/ReachableClasses.cpp

    The entity graph is a finite map from class descriptors to class records.
    A class record holds its four member vectors, and every class, method and
    field carries a [ReferencedState]; a method or a field belongs to one
    class, so members are stored in the record of their class.  A non-null
    [DexClass*] is the descriptor of a class present in the map, a [DexType*]
    is the descriptor of an interned type, and every in-place mutation
    [x->rstate.ref_by_...()] becomes an update of the map.  Loops over [Scope]
    are left folds over the vector of class pointers, in iteration order.

    A [DexString] holds a C string, so [get_name()->c_str()] is the name
    itself; a [std::string] may hold any character, so [s.c_str()] read as a
    C string stops at the first NUL.

    The headers that declare [ReferencedState], [KeepRule], [type_matches],
    [starts_with] and [type_class_internal] are not part of this translation
    unit; what the file needs of them is modelled from the specification and
    marked as such. *)

From Stdlib Require Import ZArith Ascii.
From stdpp Require Import gmap strings list fin_maps.

Local Open Scope Z_scope.
Local Open Scope nat_scope.

(* ===================================================================== *)
(** ** C strings and [std::string] *)
(* ===================================================================== *)

Definition NUL : ascii := "000"%char.

(** [s.c_str()] read back as a C string: the characters before the first
    NUL.  [std::string(s.c_str())] is therefore [c_str s]. *)
Fixpoint c_str (s : string) : string :=
  match s with
  | EmptyString => EmptyString
  | String a s' => if decide (a = NUL) then EmptyString else String a (c_str s')
  end.

Definition strlen (s : string) : nat := String.length (c_str s).

(** [is_prefix p s]: [s] begins with the characters of [p]. *)
Fixpoint is_prefix (p s : string) : bool :=
  match p, s with
  | EmptyString, _ => true
  | String _ _, EmptyString => false
  | String b p', String a s' => if decide (a = b) then is_prefix p' s' else false
  end.

(** [hay.find(needle)]: position of the first occurrence, [None] for
    [std::string::npos]. *)
Fixpoint find (hay needle : string) : option nat :=
  if is_prefix needle hay then Some 0
  else match hay with
       | EmptyString => None
       | String _ hay' => S <$> find hay' needle
       end.

(** [s.substr(pos)] for [pos <= s.size()] (the only use in this file is at
    [pos + name.size()] with [pos] returned by [find], which is in range, see
    [find_in_range] below; out of range the C++ call throws). *)
Fixpoint substr (s : string) (pos : nat) : string :=
  match pos, s with
  | 0, _ => s
  | S _, EmptyString => EmptyString
  | S n, String _ s' => substr s' n
  end.

(** [std::replace(b.begin(), b.end(), from, to)]. *)
Fixpoint replace (from to : ascii) (s : string) : string :=
  match s with
  | EmptyString => EmptyString
  | String a s' => String (if decide (a = from) then to else a) (replace from to s')
  end.

(** Modelled from the spec: [starts_with] is declared outside this
    translation unit; section 4.4 reads it as "descriptor begins with the
    configured package prefix", a test on two C strings. *)
Definition starts_with (str prefix : string) : bool := is_prefix prefix str.

(** Occurrence of a string inside another, as a proposition. *)
Definition occurs_at (n : nat) (needle hay : string) : Prop :=
  ∃ pre post, hay = pre +:+ needle +:+ post ∧ String.length pre = n.

Definition Substring (needle hay : string) : Prop :=
  ∃ pre post, hay = pre +:+ needle +:+ post.

Fixpoint has_char (a : ascii) (s : string) : Prop :=
  match s with
  | EmptyString => False
  | String b s' => a = b ∨ has_char a s'
  end.

(* ===================================================================== *)
(** ** Reachability state *)
(* ===================================================================== *)

(** Modelled from the spec: [ReferencedState] (the type of the [rstate]
    member) with its [ref_by_*] methods and the [can_delete], [can_rename] and
    [is_seed] queries is declared in a header that is not part of this
    translation unit.  Section 3 gives four facts and section 4.1 the three
    operations; each operation sets one fact and clears none. *)
Record ReferencedState := RState {
  type_referenced : bool;
  string_referenced_from_code : bool;
  string_referenced_external : bool;
  seed_referenced : bool
}.

Definition fresh_rstate : ReferencedState := RState false false false false.

Definition ref_by_type (r : ReferencedState) : ReferencedState :=
  RState true (string_referenced_from_code r) (string_referenced_external r)
         (seed_referenced r).

Definition ref_by_string (from_code : bool) (r : ReferencedState) : ReferencedState :=
  if from_code
  then RState (type_referenced r) true (string_referenced_external r) (seed_referenced r)
  else RState (type_referenced r) (string_referenced_from_code r) true (seed_referenced r).

Definition ref_by_seed (r : ReferencedState) : ReferencedState :=
  RState (type_referenced r) (string_referenced_from_code r)
         (string_referenced_external r) true.

Definition can_delete (r : ReferencedState) : bool :=
  negb (type_referenced r || string_referenced_from_code r
        || string_referenced_external r || seed_referenced r).

Definition can_rename (r : ReferencedState) : bool :=
  negb (string_referenced_external r || seed_referenced r).

Definition is_seed (r : ReferencedState) : bool := seed_referenced r.

(** Fact-wise order: everything set in [r] is set in [r']. *)
Definition rstate_le (r r' : ReferencedState) : Prop :=
  (type_referenced r = true → type_referenced r' = true) ∧
  (string_referenced_from_code r = true → string_referenced_from_code r' = true) ∧
  (string_referenced_external r = true → string_referenced_external r' = true) ∧
  (seed_referenced r = true → seed_referenced r' = true).

(* ===================================================================== *)
(** ** Entity graph *)
(* ===================================================================== *)

(** The accessors this file uses on [DexMethod], [DexField] and [DexClass]. *)
Module DexMethod.
Record t := mk { get_name : string; rstate : ReferencedState }.
End DexMethod.

Module DexField.
Record t := mk { get_name : string; rstate : ReferencedState }.
End DexField.

Module DexClass.
(** [get_super_class] is a [DexType*]: [None] for [nullptr], otherwise the
    descriptor of the super type, which may or may not have a class. *)
Record t := mk {
  get_super_class : option string;
  get_dmethods : list DexMethod.t;
  get_vmethods : list DexMethod.t;
  get_sfields : list DexField.t;
  get_ifields : list DexField.t;
  rstate : ReferencedState
}.
End DexClass.

(** The class table of the global context, keyed by the descriptor returned
    by [cls->get_type()->get_name()->c_str()].  A non-null [DexClass*] is a
    key of this table; [Scope] is a vector of such pointers. *)
Abbreviation ClassTable := (gmap string DexClass.t).
Abbreviation Scope := (list string).

(** The global context: interned types and defined classes. *)
Record RedexContext := Ctx {
  g_types : gset string;
  g_classes : gmap string DexClass.t
}.

(** [DexType::get_type(name)]: the interned type, [nullptr] when the type is
    unknown (comment at line 25). *)
Definition get_type (types : gset string) (name : string) : option string :=
  if decide (name ∈ types) then Some name else None.

(** Modelled from the spec: [type_class_internal] is declared outside this
    translation unit; it resolves a type to its class definition, and yields
    [nullptr] for [nullptr] and for types "outside the analyzed program". *)
Definition type_class_internal (h : ClassTable) (dtype : option string) : option string :=
  match dtype with
  | None => None
  | Some ty => if decide (is_Some (h !! ty)) then Some ty else None
  end.

(** Members of anything with an [rstate], for the templates over
    [DexMember]. *)
Class HasRState (T : Type) := {
  rstate_of : T → ReferencedState;
  with_rstate : ReferencedState → T → T
}.

#[global] Instance DexMethod_rstate : HasRState DexMethod.t := {|
  rstate_of := DexMethod.rstate;
  with_rstate r m := DexMethod.mk (DexMethod.get_name m) r
|}.

#[global] Instance DexField_rstate : HasRState DexField.t := {|
  rstate_of := DexField.rstate;
  with_rstate r f := DexField.mk (DexField.get_name f) r
|}.

#[global] Instance DexClass_rstate : HasRState DexClass.t := {|
  rstate_of := DexClass.rstate;
  with_rstate r c :=
    DexClass.mk (DexClass.get_super_class c) (DexClass.get_dmethods c)
                (DexClass.get_vmethods c) (DexClass.get_sfields c)
                (DexClass.get_ifields c) r
|}.

(** [m->rstate.op()] on one object. *)
Definition on_rstate {T} `{HasRState T} (op : ReferencedState → ReferencedState)
    (m : T) : T :=
  with_rstate (op (rstate_of m)) m.

(** Addresses of entities: a class by its descriptor, a member by its class
    and its position in one of the four member vectors. *)
Inductive Entity :=
| EClass (c : string)
| EDMethod (c : string) (i : nat)
| EVMethod (c : string) (i : nat)
| ESField (c : string) (i : nat)
| EIField (c : string) (i : nat).

Definition entity_class (e : Entity) : string :=
  match e with
  | EClass c | EDMethod c _ | EVMethod c _ | ESField c _ | EIField c _ => c
  end.

Definition entity_rstate (h : ClassTable) (e : Entity) : option ReferencedState :=
  match e with
  | EClass c => DexClass.rstate <$> h !! c
  | EDMethod c i => cls ← h !! c; DexMethod.rstate <$> DexClass.get_dmethods cls !! i
  | EVMethod c i => cls ← h !! c; DexMethod.rstate <$> DexClass.get_vmethods cls !! i
  | ESField c i => cls ← h !! c; DexField.rstate <$> DexClass.get_sfields cls !! i
  | EIField c i => cls ← h !! c; DexField.rstate <$> DexClass.get_ifields cls !! i
  end.

(** Apply [op] to the [rstate] of the one object [e] points to. *)
Definition update_entity (op : ReferencedState → ReferencedState) (e : Entity)
    (h : ClassTable) : ClassTable :=
  match e with
  | EClass c => alter (on_rstate op) c h
  | EDMethod c i =>
      alter (λ cls, DexClass.mk (DexClass.get_super_class cls)
                      (alter (on_rstate op) i (DexClass.get_dmethods cls))
                      (DexClass.get_vmethods cls) (DexClass.get_sfields cls)
                      (DexClass.get_ifields cls) (DexClass.rstate cls)) c h
  | EVMethod c i =>
      alter (λ cls, DexClass.mk (DexClass.get_super_class cls)
                      (DexClass.get_dmethods cls)
                      (alter (on_rstate op) i (DexClass.get_vmethods cls))
                      (DexClass.get_sfields cls)
                      (DexClass.get_ifields cls) (DexClass.rstate cls)) c h
  | ESField c i =>
      alter (λ cls, DexClass.mk (DexClass.get_super_class cls)
                      (DexClass.get_dmethods cls) (DexClass.get_vmethods cls)
                      (alter (on_rstate op) i (DexClass.get_sfields cls))
                      (DexClass.get_ifields cls) (DexClass.rstate cls)) c h
  | EIField c i =>
      alter (λ cls, DexClass.mk (DexClass.get_super_class cls)
                      (DexClass.get_dmethods cls) (DexClass.get_vmethods cls)
                      (DexClass.get_sfields cls)
                      (alter (on_rstate op) i (DexClass.get_ifields cls))
                      (DexClass.rstate cls)) c h
  end.

(* ===================================================================== *)
(** ** Marking engine (lines 27-129) *)
(* ===================================================================== *)

(** Lines 27-38.  [dotname] is a [const char*]. *)
Definition get_dextype_from_dotname (types : gset string)
    (dotname : option string) : option string :=
  match dotname with
  | None => None
  | Some dotname =>
      let buf := String "L" (c_str dotname +:+ ";") in
      let buf := replace "." "/" buf in
      get_type types (c_str buf)
  end.

(** The body of a cascading mark: the class, then its four member vectors. *)
Definition cascade (op : ReferencedState → ReferencedState) (cls : DexClass.t)
    : DexClass.t :=
  DexClass.mk (DexClass.get_super_class cls)
              (on_rstate op <$> DexClass.get_dmethods cls)
              (on_rstate op <$> DexClass.get_vmethods cls)
              (on_rstate op <$> DexClass.get_sfields cls)
              (on_rstate op <$> DexClass.get_ifields cls)
              (op (DexClass.rstate cls)).

(** Lines 49-67. *)
Definition mark_reachable_directly (dclass : option string) (h : ClassTable)
    : ClassTable :=
  match dclass with
  | None => h
  | Some c => alter (cascade ref_by_type) c h
  end.

(** Lines 69-72, on one object and through a pointer. *)
Definition mark_only_reachable_directly {T} `{HasRState T} (m : T) : T :=
  on_rstate ref_by_type m.

Definition mark_only_reachable_directly_at (e : Entity) (h : ClassTable)
    : ClassTable :=
  update_entity ref_by_type e h.

(** Lines 88-106. *)
Definition mark_reachable_by_classname (dclass : option string) (from_code : bool)
    (h : ClassTable) : ClassTable :=
  match dclass with
  | None => h
  | Some c => alter (cascade (ref_by_string from_code)) c h
  end.

(** Lines 108-110. *)
Definition mark_reachable_by_classname_type (dtype : option string)
    (from_code : bool) (h : ClassTable) : ClassTable :=
  mark_reachable_by_classname (type_class_internal h dtype) from_code h.

(** Lines 112-119. *)
Definition mark_reachable_by_classname_str (g : RedexContext) (classname : string)
    (from_code : bool) : ClassTable :=
  match get_type (g_types g) (c_str classname) with
  | None => g_classes g
  | Some dtype =>
      mark_reachable_by_classname (type_class_internal (g_classes g) (Some dtype))
                                  from_code (g_classes g)
  end.

(** Lines 121-124. *)
Definition mark_reachable_by_seed (dclass : option string) (h : ClassTable)
    : ClassTable :=
  match dclass with
  | None => h
  | Some c => alter (on_rstate ref_by_seed) c h
  end.

(** Lines 126-129. *)
Definition mark_reachable_by_seed_type (dtype : option string) (h : ClassTable)
    : ClassTable :=
  match dtype with
  | None => h
  | Some _ => mark_reachable_by_seed (type_class_internal h dtype) h
  end.

(* ===================================================================== *)
(** ** Rule evaluator (lines 178-365) *)
(* ===================================================================== *)

(** Lines 191-196: the sweep over the static fields of [cls]; [cls_rs] is
    [cls->rstate], marked at every matching field. *)
Fixpoint keep_class_members_sfields (rem_str : string) (sfields : list DexField.t)
    (cls_rs : ReferencedState) : list DexField.t * ReferencedState :=
  match sfields with
  | [] => ([], cls_rs)
  | f :: rest =>
      match find rem_str (DexField.get_name f) with
      | Some _ =>
          let '(rest', rs') :=
            keep_class_members_sfields rem_str rest (ref_by_type cls_rs) in
          (mark_only_reachable_directly f :: rest', rs')
      | None =>
          let '(rest', rs') := keep_class_members_sfields rem_str rest cls_rs in
          (f :: rest', rs')
      end
  end.

(** Lines 190-196 on one class, for the remainder [rem_str] of a rule. *)
Definition keep_class_members_cls (rem_str : string) (cls : DexClass.t)
    : DexClass.t :=
  let '(sfields', rs') :=
    keep_class_members_sfields rem_str (DexClass.get_sfields cls)
                               (DexClass.rstate cls) in
  DexClass.mk (DexClass.get_super_class cls) (DexClass.get_dmethods cls)
              (DexClass.get_vmethods cls) sfields'
              (DexClass.get_ifields cls) rs'.

(** Lines 186-199: the loop over the configured rules for one class, left at
    the first rule in which the class name occurs. *)
Fixpoint keep_class_members_rules (keep_class_mems : list string) (name : string)
    (cls : DexClass.t) : DexClass.t :=
  match keep_class_mems with
  | [] => cls
  | class_mem :: rest =>
      let class_mem_str := c_str class_mem in
      match find class_mem_str name with
      | Some pos =>
          let rem_str := substr class_mem_str (pos + String.length name) in
          keep_class_members_cls rem_str cls
      | None => keep_class_members_rules rest name cls
      end
  end.

(** Lines 181-201. *)
Definition keep_class_members (scope : Scope) (keep_class_mems : list string)
    (h : ClassTable) : ClassTable :=
  foldl (λ h cls, alter (keep_class_members_rules keep_class_mems cls) cls h)
        h scope.

(** Lines 206-215 on one class. *)
Definition keep_methods_cls (methods_to_keep : gset string) (cls : DexClass.t)
    : DexClass.t :=
  let keep (m : DexMethod.t) :=
    if decide (DexMethod.get_name m ∈ methods_to_keep)
    then on_rstate (ref_by_string false) m else m in
  DexClass.mk (DexClass.get_super_class cls)
              (keep <$> DexClass.get_dmethods cls)
              (keep <$> DexClass.get_vmethods cls)
              (DexClass.get_sfields cls) (DexClass.get_ifields cls)
              (DexClass.rstate cls).

(** Lines 203-217. *)
Definition keep_methods (scope : Scope) (ms : list string) (h : ClassTable)
    : ClassTable :=
  let methods_to_keep : gset string := list_to_set ms in
  foldl (λ h cls, alter (keep_methods_cls methods_to_keep) cls h) h scope.

(** Lines 223-235.  The C++ function calls itself on the superclass; [fuel]
    bounds the number of calls, and [None] means the bound was reached. *)
Fixpoint in_reflected_pkg (fuel : nat) (h : ClassTable) (dclass : option string)
    (reflected_pkg_classes : gset string) : option bool :=
  match fuel with
  | 0 => None
  | S fuel' =>
      match dclass with
      | None => Some false
      | Some c =>
          if decide (c ∈ reflected_pkg_classes) then Some true
          else in_reflected_pkg fuel' h
                 (type_class_internal h (h !! c ≫= DexClass.get_super_class))
                 reflected_pkg_classes
      end
  end.

(** Lines 305-314: the classes whose name starts with a configured package
    name. *)
Definition seed_reflected_packages (scope : Scope)
    (reflected_package_names : list string) : gset string :=
  foldl (λ set clazz,
           foldl (λ set pkg,
                    if starts_with clazz (c_str pkg) then {[clazz]} ∪ set else set)
                 set reflected_package_names)
        ∅ scope.

(** Modelled from the spec: [KeepRule] and [keeprules::ClassType] are
    declared outside this translation unit; section 3 gives a class-name
    pattern and an entity kind "class/interface/other".  [classname] is a
    [const char*]. *)
Inductive ClassType := CLASS | INTERFACE | OTHER.

Record KeepRule := mkKeepRule {
  class_type : ClassType;
  classname : option string
}.

(** Lines 340-349: the pattern a rule contributes, if any. *)
Definition rule_pattern (r : KeepRule) : option string :=
  match classname r with
  | None => None
  | Some cn =>
      if match class_type r with CLASS | INTERFACE => true | OTHER => false end
         && bool_decide (2 < strlen cn)
      then Some (String "L" (replace "." "/" (c_str cn)))
      else None
  end.

(** Lines 338-350. *)
Definition cls_patterns (proguard_rules : list KeepRule) : list string :=
  omap rule_pattern proguard_rules.

Fixpoint has_wildcard (pat : string) : bool :=
  match pat with
  | EmptyString => false
  | String a pat' =>
      bool_decide (a = "*"%char) || bool_decide (a = "?"%char) || has_wildcard pat'
  end.

(** Modelled from the spec: [type_matches] is declared outside this
    translation unit.  Section 4.2: the result is "exact equality after
    translation for wildcard-free patterns", the two lengths being passed
    "for efficiency, not semantics".  What it answers for a pattern with a
    wildcard is left open by the spec and is the parameter [wild]. *)
Definition type_matches (wild : string → string → bool)
    (pattern name : string) (pl nl : nat) : bool :=
  if has_wildcard pattern then wild pattern name
  else bool_decide (pattern = name).

(** Lines 352-365 ([pg_marked_classes] only feeds the trace). *)
Definition mark_cls_patterns (wild : string → string → bool) (scope : Scope)
    (patterns : list string) (h : ClassTable) : ClassTable :=
  foldl (λ h clazz,
           if existsb (λ pat, type_matches wild (c_str pat) clazz
                                (String.length pat) (strlen clazz)) patterns
           then mark_reachable_directly (Some clazz) h else h)
        h scope.

(* ===================================================================== *)
(** ** Seed ingestion (lines 436-468) *)
(* ===================================================================== *)

(** [count] is an [unsigned int]. *)
Definition UINT_MODULUS : Z := 2 ^ 32.

(** Lines 448-460: one iteration of the [getline] loop. *)
Definition seed_line (types : gset string) (st : Z * ClassTable) (line : string)
    : Z * ClassTable :=
  let '(count, h) := st in
  match find line ":", find line "$" with
  | None, None =>
      match get_dextype_from_dotname types (Some line) with
      | Some dex_type =>
          ((count + 1) mod UINT_MODULUS,
           mark_reachable_by_seed_type (Some dex_type) h)%Z
      | None => (count, h)
      end
  | _, _ => (count, h)
  end.

(** Lines 436-468.  The seed resource is [None] when the stream cannot be
    opened, otherwise the lines [getline] yields, in order. *)
Definition init_seed_classes (seeds_file : option (list string)) (g : RedexContext)
    : Z * RedexContext :=
  match seeds_file with
  | None => (0%Z, g)
  | Some lines =>
      let '(count, h) := foldl (seed_line (g_types g)) (0%Z, g_classes g) lines in
      (count, Ctx (g_types g) h)
  end.

(* ===================================================================== *)
(** ** Sequences of marking operations *)
(* ===================================================================== *)

Inductive MarkOp :=
| MarkDirect (dclass : option string)
| MarkOnlyDirect (e : Entity)
| MarkByName (dclass : option string) (from_code : bool)
| MarkOnlyByName (e : Entity) (from_code : bool)
| MarkBySeed (dclass : option string).

Definition run_mark (h : ClassTable) (op : MarkOp) : ClassTable :=
  match op with
  | MarkDirect d => mark_reachable_directly d h
  | MarkOnlyDirect e => mark_only_reachable_directly_at e h
  | MarkByName d from_code => mark_reachable_by_classname d from_code h
  | MarkOnlyByName e from_code => update_entity (ref_by_string from_code) e h
  | MarkBySeed d => mark_reachable_by_seed d h
  end.

Definition run_marks (ops : list MarkOp) (h : ClassTable) : ClassTable :=
  foldl run_mark h ops.

(* ===================================================================== *)
(** ** Specification-level notions used in the statements *)
(* ===================================================================== *)

(** Order on members, class records and class tables: same shape, and every
    fact set on the left is set on the right. *)
Definition member_le {T} `{HasRState T} (m m' : T) : Prop :=
  rstate_le (rstate_of m) (rstate_of m').

Record cls_le (cls cls' : DexClass.t) : Prop := {
  le_dmethods :
    Forall2 member_le (DexClass.get_dmethods cls) (DexClass.get_dmethods cls');
  le_vmethods :
    Forall2 member_le (DexClass.get_vmethods cls) (DexClass.get_vmethods cls');
  le_sfields :
    Forall2 member_le (DexClass.get_sfields cls) (DexClass.get_sfields cls');
  le_ifields :
    Forall2 member_le (DexClass.get_ifields cls) (DexClass.get_ifields cls');
  le_rstate : rstate_le (DexClass.rstate cls) (DexClass.rstate cls')
}.

Definition table_le (h h' : ClassTable) : Prop :=
  ∀ c cls, h !! c = Some cls → ∃ cls', h' !! c = Some cls' ∧ cls_le cls cls'.

(** What [keep_methods] does to one method: it keeps its name, and applies
    [ref_by_string(false)] exactly when the name is one of [ms]. *)
Definition method_kept (ms : list string) (m m' : DexMethod.t) : Prop :=
  DexMethod.get_name m' = DexMethod.get_name m ∧
  (((DexMethod.get_name m ∈ ms)
    ∧ DexMethod.rstate m' = ref_by_string false (DexMethod.rstate m))
   ∨ ((DexMethod.get_name m ∉ ms) ∧ DexMethod.rstate m' = DexMethod.rstate m)).

(** What [keep_class_members] does to one static field, given the remainder
    of the selected rule: [ref_by_type] exactly when the field name occurs in
    the remainder. *)
Definition field_kept (rem_str : string) (f f' : DexField.t) : Prop :=
  DexField.get_name f' = DexField.get_name f ∧
  ((Substring (DexField.get_name f) rem_str
    ∧ DexField.rstate f' = ref_by_type (DexField.rstate f))
   ∨ (¬ Substring (DexField.get_name f) rem_str
      ∧ DexField.rstate f' = DexField.rstate f)).

(** The rule [keep_class_members] selects for the class [name]: the first
    rule, in configured order, in which [name] occurs; [rem_str] is the text of
    that rule after the first occurrence of [name]. *)
Definition selected_rule (name : string) (rules : list string) (rem_str : string)
    : Prop :=
  ∃ rs1 r rs2 pre,
    rules = rs1 ++ r :: rs2
    ∧ Forall (λ r', ¬ Substring name (c_str r')) rs1
    ∧ c_str r = pre +:+ name +:+ rem_str
    ∧ ∀ m, occurs_at m name (c_str r) → String.length pre ≤ m.

(** The same, computed. *)
Fixpoint rule_remainder (rules : list string) (name : string) : option string :=
  match rules with
  | [] => None
  | r :: rest =>
      match find (c_str r) name with
      | Some pos => Some (substr (c_str r) (pos + String.length name))
      | None => rule_remainder rest name
      end
  end.

(** [p] is the class that [type_class_internal] finds for the superclass
    of [c]: one step of the walk of [in_reflected_pkg]. *)
Definition super_of (h : ClassTable) (c p : string) : Prop :=
  type_class_internal h (h !! c ≫= DexClass.get_super_class) = Some p.

(** A call of [in_reflected_pkg] returns [b] when some number of nested
    calls is enough for it. *)
Definition in_reflected_pkg_returns (h : ClassTable) (dclass : option string)
    (reflected_pkg_classes : gset string) (b : bool) : Prop :=
  ∃ fuel, in_reflected_pkg fuel h dclass reflected_pkg_classes = Some b.

(** Internal class descriptors start with the class-type marker and hold no
    dot; a package prefix in external form holds a dot or starts with
    something else than the marker. *)
Definition class_descriptor (c : string) : Prop :=
  ∃ rest, c = String "L" rest ∧ ¬ has_char "." rest.

Definition external_dotted (p : string) : Prop :=
  has_char "." p ∨ ∃ a rest, p = String a rest ∧ a ≠ "L"%char.


(** The descriptor a seed line stands for (lines 31-36). *)
Definition descriptor_of_dotname (dotname : string) : string :=
  String "L" (replace "." "/" (c_str dotname) +:+ ";").

#[global] Instance has_char_dec a s : Decision (has_char a s).
Proof. induction s; simpl; apply _. Defined.

(** The type a seed line resolves to, if the line is accepted and the type
    is known. *)
Definition seed_type (types : gset string) (line : string) : option string :=
  if decide (has_char ":" line ∨ has_char "$" line) then None
  else if decide (descriptor_of_dotname line ∈ types)
       then Some (descriptor_of_dotname line) else None.

(** The classes on which the seed fact is set. *)
Definition seeded (h : ClassTable) : gset string :=
  dom (filter (λ kv, seed_referenced (DexClass.rstate kv.2) = true) h).

(* ===================================================================== *)
(** ** Small programs used in the examples *)
(* ===================================================================== *)

Definition new_method (name : string) : DexMethod.t :=
  DexMethod.mk name fresh_rstate.

Definition new_field (name : string) : DexField.t :=
  DexField.mk name fresh_rstate.

(** A class with one member of each kind; its static field is [Bar]. *)
Definition foo_class : DexClass.t :=
  DexClass.mk (Some "Ljava/lang/Object;") [new_method "<init>"] [new_method "run"]
              [new_field "Bar"] [new_field "count"] fresh_rstate.

Definition foo_scope : Scope := ["LFoo1;"; "LFoo2;"].

Definition foo_table : ClassTable :=
  <["LFoo1;" := foo_class]> (<["LFoo2;" := foo_class]> ∅).

(** The same two classes under the bare names [Foo1] and [Foo2]. *)
Definition bare_scope : Scope := ["Foo1"; "Foo2"].

Definition bare_table : ClassTable :=
  <["Foo1" := foo_class]> (<["Foo2" := foo_class]> ∅).

Definition class_extending (super : string) : DexClass.t :=
  DexClass.mk (Some super) [] [] [] [] fresh_rstate.

(** [LA;] extends [LB;] and [LB;] extends [LA;]. *)
Definition cyclic_table : ClassTable :=
  <["LA;" := class_extending "LB;"]> (<["LB;" := class_extending "LA;"]> ∅).

(** [LB;] extends [LA;], which extends a class outside the program. *)
Definition chain_table : ClassTable :=
  <["LB;" := class_extending "LA;"]>
    (<["LA;" := class_extending "Ljava/lang/Object;"]> ∅).

(** A program that defines [com.example.Keep] and refers to
    [java.lang.Object], which it does not define. *)
Definition keep_ctx : RedexContext :=
  Ctx ({["Lcom/example/Keep;"]} ∪ {["Ljava/lang/Object;"]})
      (<["Lcom/example/Keep;" := class_extending "Ljava/lang/Object;"]> ∅).

Definition activity_class : DexClass.t :=
  DexClass.mk (Some "Landroid/app/Activity;")
              [new_method "onCreate"; new_method "onCreate2"]
              [new_method "onCreateView"; new_method "onCreate"]
              [] [] fresh_rstate.

Definition activity_table : ClassTable :=
  <["Lcom/example/Main;" := activity_class]> ∅.

(* ===================================================================== *)
(** ** The rest of the translation unit *)
(* ===================================================================== *)

(** [get_anno_set()] and [get_access() & ACC_NATIVE] are read-only
    attributes of an entity, which the code of this file never writes.  They
    are kept beside the class table, indexed by entity address: the
    annotation set is [None] for [nullptr], otherwise the types of the
    annotations it holds, in order. *)
Abbreviation AnnoTable := (Entity → option (list string)).

(** Lines 131-145. *)
Definition anno_set_contains (anno_set : option (list string))
    (keep_annotations : gset string) : bool :=
  match anno_set with
  | None => false
  | Some annos => existsb (λ anno, bool_decide (anno ∈ keep_annotations)) annos
  end.

(** Lines 152-174 on the class [c]: the class, then each of its four member
    vectors. *)
Definition keep_annotated_cls (annos : AnnoTable) (keep_annotations : gset string)
    (c : string) (cls : DexClass.t) : DexClass.t :=
  let keep {T} `{HasRState T} (e : Entity) (m : T) : T :=
    if anno_set_contains (annos e) keep_annotations
    then mark_only_reachable_directly m else m in
  DexClass.mk (DexClass.get_super_class cls)
              (imap (λ i, keep (EDMethod c i)) (DexClass.get_dmethods cls))
              (imap (λ i, keep (EVMethod c i)) (DexClass.get_vmethods cls))
              (imap (λ i, keep (ESField c i)) (DexClass.get_sfields cls))
              (imap (λ i, keep (EIField c i)) (DexClass.get_ifields cls))
              (DexClass.rstate (keep (EClass c) cls)).

(** Lines 147-176. *)
Definition keep_annotated_classes (scope : Scope) (keep_annotations : gset string)
    (annos : AnnoTable) (h : ClassTable) : ClassTable :=
  foldl (λ h cls, alter (keep_annotated_cls annos keep_annotations cls) cls h)
        h scope.

(** The methods of a class, direct ones first, as [walk_methods] visits
    them. *)
Definition class_methods (c : string) (cls : DexClass.t) : list Entity :=
  (EDMethod c <$> seq 0 (length (DexClass.get_dmethods cls)))
  ++ (EVMethod c <$> seq 0 (length (DexClass.get_vmethods cls))).

(** Lines 380-389.  Modelled from the spec: [walk_methods] is declared
    outside this translation unit; section 4.6 has it visit every method of
    every class in scope.  [native meth] stands for
    [meth->get_access() & ACC_NATIVE], and [meth->get_class()] is the type of
    the class that declares [meth]. *)
Definition recompute_classes_reachable_from_code (native : Entity → bool)
    (scope : Scope) (h : ClassTable) : ClassTable :=
  foldl (λ h c,
           match h !! c with
           | None => h
           | Some cls =>
               foldl (λ h meth,
                        if native meth
                        then mark_reachable_by_classname_type
                               (Some (entity_class meth)) true h
                        else h)
                     h (class_methods c cls)
           end)
        h scope.

(** Lines 315-327: the loop that closes the reflected set under subclassing
    and marks its classes.  [fuel] bounds each call of [in_reflected_pkg]. *)
Fixpoint close_reflected_packages (fuel : nat) (scope : Scope)
    (reflected_package_classes : gset string) (h : ClassTable)
    : option (gset string * ClassTable) :=
  match scope with
  | [] => Some (reflected_package_classes, h)
  | clazz :: rest =>
      match in_reflected_pkg fuel h (Some clazz) reflected_package_classes with
      | None => None
      | Some true =>
          close_reflected_packages fuel rest
            ({[clazz]} ∪ reflected_package_classes)
            (mark_reachable_by_classname (Some clazz) false h)
      | Some false =>
          close_reflected_packages fuel rest reflected_package_classes h
      end
  end.

(** The collaborators that read the application package: the class names of
    the manifest at a path, of the layouts and of the native libraries under
    a directory. *)
Record ApkReaders := mkApkReaders {
  get_manifest_classes : string → list string;
  get_layout_classes : string → list string;
  get_native_classes : string → list string
}.

(** Lines 282-303. *)
Definition mark_apk_classes (readers : ApkReaders) (types : gset string)
    (apk_dir : string) (h : ClassTable) : ClassTable :=
  if decide (String.length apk_dir = 0) then h
  else
    let manifest := apk_dir +:+ "/AndroidManifest.xml" in
    let h := foldl (λ h classname,
                      mark_reachable_by_classname_str (Ctx types h) classname false)
                   h (get_manifest_classes readers manifest) in
    let h := foldl (λ h classname,
                      mark_reachable_by_classname_str (Ctx types h) classname false)
                   h (get_layout_classes readers apk_dir) in
    foldl (λ h classname,
             match get_type types (c_str classname) with
             | None => h
             | Some type => mark_reachable_by_classname_type (Some type) false h
             end)
          h (get_native_classes readers apk_dir).

(** The five entries [PassConfig] is asked for (lines 263-267), each with its
    default when the entry is absent. *)
Module PassConfig.
Record t := mk {
apk_dir : string;
keep_packages : list string;
keep_annotations : list string;
keep_class_members : list string;
keep_methods : list string
}.
Definition empty : t := mk "" [] [] [] [].
End PassConfig.

(** Lines 269-276. *)
Definition annotation_types (types : gset string)
    (no_optimizations_anno : gset string) (annotations : list string)
    : gset string :=
  foldl (λ set annostr,
           match get_type types (c_str annostr) with
           | Some anno => {[anno]} ∪ set
           | None => set
           end)
        no_optimizations_anno annotations.

(** Lines 249-368. *)
Definition init_permanently_reachable_classes (fuel : nat) (readers : ApkReaders)
    (wild : string → string → bool) (annos : AnnoTable) (scope : Scope)
    (config : PassConfig.t) (proguard_rules : list KeepRule)
    (no_optimizations_anno : gset string) (g : RedexContext)
    : option RedexContext :=
  let types := g_types g in
  let h := keep_annotated_classes scope
             (annotation_types types no_optimizations_anno
                               (PassConfig.keep_annotations config))
             annos (g_classes g) in
  let h := keep_class_members scope (PassConfig.keep_class_members config) h in
  let h := keep_methods scope (PassConfig.keep_methods config) h in
  let h := mark_apk_classes readers types (PassConfig.apk_dir config) h in
  match close_reflected_packages fuel scope
          (seed_reflected_packages scope (PassConfig.keep_packages config)) h with
  | None => None
  | Some (_, h) =>
      Some (Ctx types (mark_cls_patterns wild scope (cls_patterns proguard_rules) h))
  end.

(** Lines 419-434. *)
Definition init_reachable_classes (fuel : nat) (readers : ApkReaders)
    (wild : string → string → bool) (annos : AnnoTable) (native : Entity → bool)
    (scope : Scope) (config : PassConfig.t) (proguard_rules : list KeepRule)
    (no_optimizations_anno : gset string) (g : RedexContext)
    : option RedexContext :=
  match init_permanently_reachable_classes fuel readers wild annos scope config
          proguard_rules no_optimizations_anno g with
  | None => None
  | Some g' =>
      Some (Ctx (g_types g')
                (recompute_classes_reachable_from_code native scope (g_classes g')))
  end.

(** Lines 391-417: the lines written to the three report files. *)
Record Report := mkReport {
  cant_delete : list string;
  cant_rename : list string;
  must_keep : list string
}.

Definition class_has (p : ReferencedState → bool) (h : ClassTable) (c : string)
    : bool :=
  match h !! c with
  | Some cls => p (DexClass.rstate cls)
  | None => false
  end.

Definition reportReachableClasses (scope : Scope) (h : ClassTable) : Report :=
  mkReport (filter (λ c, class_has (λ r, negb (can_delete r)) h c = true) scope)
           (filter (λ c, class_has (λ r, negb (can_rename r)) h c = true) scope)
           (filter (λ c, class_has is_seed h c = true) scope).

(* ===================================================================== *)
(** ** Further specification-level notions *)
(* ===================================================================== *)

#[global] Instance Entity_eq_dec : EqDecision Entity.
Proof. solve_decision. Defined.

#[global] Instance MarkOp_eq_dec : EqDecision MarkOp.
Proof. solve_decision. Defined.

(** Fact-wise disjunction of two states; a setter is an operation that adds
    a fixed set of facts. *)
Definition rstate_or (k r : ReferencedState) : ReferencedState :=
  RState (type_referenced k || type_referenced r)
         (string_referenced_from_code k || string_referenced_from_code r)
         (string_referenced_external k || string_referenced_external r)
         (seed_referenced k || seed_referenced r).

Definition setter (f : ReferencedState → ReferencedState) : Prop :=
  ∃ k, ∀ r, f r = rstate_or k r.

(** A class rewritten position by position: [mc] on the class, and the
    operation a mask gives for each index of a member vector. *)
Definition mask_class (mc : ReferencedState → ReferencedState)
    (md mv ms mi : nat → ReferencedState → ReferencedState) (cls : DexClass.t)
    : DexClass.t :=
  DexClass.mk (DexClass.get_super_class cls)
              (imap (λ j, on_rstate (md j)) (DexClass.get_dmethods cls))
              (imap (λ j, on_rstate (mv j)) (DexClass.get_vmethods cls))
              (imap (λ j, on_rstate (ms j)) (DexClass.get_sfields cls))
              (imap (λ j, on_rstate (mi j)) (DexClass.get_ifields cls))
              (mc (DexClass.rstate cls)).

(** The class or one of the classes above it is in the set. *)
Definition reaches (h : ClassTable) (set : gset string) (c : string) : Prop :=
  ∃ a, rtc (super_of h) c a ∧ a ∈ set.

(** The superclass chain of [c] ends: at some class on it
    [type_class_internal] finds no class for the superclass, which is null
    or a type without class definition. *)
Definition chain_ends (h : ClassTable) (c : string) : Prop :=
  ∃ d, rtc (super_of h) c d
       ∧ type_class_internal h (h !! d ≫= DexClass.get_super_class) = None.

(** The superclass chain of [c] runs into a cycle. *)
Definition chain_cyclic (h : ClassTable) (c : string) : Prop :=
  ∃ d, rtc (super_of h) c d ∧ tc (super_of h) d d.

(** The operation a mask holds for an entity. *)
Definition entity_mask (mc : ReferencedState → ReferencedState)
    (md mv ms mi : nat → ReferencedState → ReferencedState) (e : Entity)
    : ReferencedState → ReferencedState :=
  match e with
  | EClass _ => mc
  | EDMethod _ i => md i
  | EVMethod _ i => mv i
  | ESField _ i => ms i
  | EIField _ i => mi i
  end.

(** The entity carries an annotation of one of the kept types. *)
Definition annotated (annos : AnnoTable) (keep_annotations : gset string)
    (e : Entity) : Prop :=
  ∃ l a, annos e = Some l ∧ a ∈ l ∧ a ∈ keep_annotations.

(** The class declares a native method. *)
Definition has_native (native : Entity → bool) (c : string) (cls : DexClass.t)
    : Prop :=
  (∃ i, i < length (DexClass.get_dmethods cls) ∧ native (EDMethod c i) = true)
  ∨ (∃ i, i < length (DexClass.get_vmethods cls) ∧ native (EVMethod c i) = true).

(** Two tables with the same classes and the same superclass links. *)
Definition same_hierarchy (h h' : ClassTable) : Prop :=
  ∀ c, h' !! c ≫= DexClass.get_super_class = h !! c ≫= DexClass.get_super_class
       ∧ (is_Some (h' !! c) ↔ is_Some (h !! c)).

(** Class tables related entity by entity: the same classes with the same
    superclass and the same members, each member the same up to its state,
    and the states related by [R]. *)
Definition member_rel {T} `{HasRState T} (R : relation ReferencedState)
    (m m' : T) : Prop :=
  R (rstate_of m) (rstate_of m') ∧ with_rstate (rstate_of m) m' = m.

Record cls_rel (R : relation ReferencedState) (cls cls' : DexClass.t) : Prop := {
  rel_super : DexClass.get_super_class cls' = DexClass.get_super_class cls;
  rel_dmethods :
    Forall2 (member_rel R) (DexClass.get_dmethods cls) (DexClass.get_dmethods cls');
  rel_vmethods :
    Forall2 (member_rel R) (DexClass.get_vmethods cls) (DexClass.get_vmethods cls');
  rel_sfields :
    Forall2 (member_rel R) (DexClass.get_sfields cls) (DexClass.get_sfields cls');
  rel_ifields :
    Forall2 (member_rel R) (DexClass.get_ifields cls) (DexClass.get_ifields cls');
  rel_rstate : R (DexClass.rstate cls) (DexClass.rstate cls')
}.

Definition table_rel (R : relation ReferencedState) (h h' : ClassTable) : Prop :=
  ∀ c, option_Forall2 (cls_rel R) (h !! c) (h' !! c).

(** What the rule evaluator and the native-method scan may do to a state:
    set facts, and leave the seed fact as it is. *)
Definition marked_not_seeded (r r' : ReferencedState) : Prop :=
  rstate_le r r' ∧ seed_referenced r' = seed_referenced r.

(* ===================================================================== *)
(** ** Further small programs used in the examples *)
(* ===================================================================== *)

(** The classes of [chain_table] with the types they mention. *)
Definition chain_ctx : RedexContext :=
  Ctx ({["LA;"]} ∪ {["LB;"]} ∪ {["Ljava/lang/Object;"]}) chain_table.

(** Only the static field of [LFoo1;] is annotated. *)
Definition foo_annos : AnnoTable :=
  λ e, if decide (e = ESField "LFoo1;" 0) then Some ["Lcom/example/Keep;"] else None.

(** Only the virtual method of [LFoo2;] is native. *)
Definition foo_native : Entity → bool :=
  λ e, bool_decide (e = EVMethod "LFoo2;" 0).

Definition no_readers : ApkReaders :=
  mkApkReaders (λ _, []) (λ _, []) (λ _, []).

(** A package whose manifest names [LA;] and whose layouts name an unknown
    class. *)
Definition chain_readers : ApkReaders :=
  mkApkReaders (λ _, ["LA;"]) (λ _, ["Lcom/example/Missing;"]) (λ _, []).


(* ===================================================================== *)
(** ** Strings *)
(* ===================================================================== *)

Section strings.
Implicit Types (s t p hay needle pre post : string) (a b : ascii).

Lemma app_nil s : "" +:+ s = s.
Proof. reflexivity. Qed.

Lemma app_cons a s t : String a s +:+ t = String a (s +:+ t).
Proof. reflexivity. Qed.

Lemma app_nil_r s : s +:+ "" = s.
Proof. induction s as [|a s IH]; [done|]. by rewrite app_cons, IH. Qed.

Lemma app_assoc s t p : (s +:+ t) +:+ p = s +:+ t +:+ p.
Proof. induction s as [|a s IH]; [done|]. by rewrite !app_cons, IH. Qed.

Lemma app_length s t :
  String.length (s +:+ t) = String.length s + String.length t.
Proof. induction s as [|a s IH]; [done|]. rewrite app_cons. simpl. by rewrite IH. Qed.

Lemma is_prefix_spec p s : is_prefix p s = true ↔ ∃ rest, s = p +:+ rest.
Proof.
  revert s. induction p as [|b p IH]; intros s; simpl.
  - split; [intros _; by exists s | done].
  - destruct s as [|a s].
    + split; [done | intros [rest Hr]; by rewrite app_cons in Hr].
    + case_decide as Hab.
      * subst b. rewrite IH. split; intros [rest Hr]; exists rest.
        -- by rewrite app_cons, Hr.
        -- rewrite app_cons in Hr. by injection Hr.
      * split; [done | intros [rest Hr]]. rewrite app_cons in Hr.
        injection Hr as ??. congruence.
Qed.

Lemma occurs_at_0 needle hay :
  occurs_at 0 needle hay ↔ is_prefix needle hay = true.
Proof.
  rewrite is_prefix_spec. split.
  - intros ([|??] & post & -> & Hl); [|done]. by exists post.
  - intros [rest ->]. by exists "", rest.
Qed.

Lemma occurs_at_S n needle a hay :
  occurs_at (S n) needle (String a hay) ↔ occurs_at n needle hay.
Proof.
  split.
  - intros ([|b pre] & post & Heq & Hl); [done|].
    rewrite app_cons in Heq. injection Heq as -> ->.
    exists pre, post. split; [done|]. simpl in Hl. lia.
  - intros (pre & post & -> & Hl). exists (String a pre), post.
    split; [done|]. simpl. lia.
Qed.

Lemma occurs_at_nil n needle : occurs_at n needle "" → n = 0.
Proof. by intros ([|??] & post & Heq & <-). Qed.

Lemma Substring_occurs needle hay :
  Substring needle hay ↔ ∃ n, occurs_at n needle hay.
Proof.
  split.
  - intros (pre & post & ->). by exists (String.length pre), pre, post.
  - intros (n & pre & post & -> & _). by exists pre, post.
Qed.

(** [find] returns the least position at which the needle occurs. *)
Lemma find_Some hay needle n :
  find hay needle = Some n ↔
  occurs_at n needle hay ∧ ∀ m, occurs_at m needle hay → n ≤ m.
Proof.
  revert n. induction hay as [|a hay IH]; intros n.
  - cbn [find]. destruct (is_prefix needle "") eqn:Hp.
    + apply occurs_at_0 in Hp. split.
      * intros [= <-]. split; [done | lia].
      * intros [Hn _]. by rewrite (occurs_at_nil _ _ Hn).
    + split; [done|]. intros [Hn _].
      pose proof (occurs_at_nil _ _ Hn) as ->.
      apply occurs_at_0 in Hn. congruence.
  - cbn [find]. destruct (is_prefix needle (String a hay)) eqn:Hp.
    + apply occurs_at_0 in Hp. split.
      * intros [= <-]. split; [done | lia].
      * intros [_ Hmin]. apply Hmin in Hp. f_equal. lia.
    + destruct n as [|n].
      * split; [by destruct (find hay needle)|].
        intros [Hn _]. apply occurs_at_0 in Hn. congruence.
      * transitivity (find hay needle = Some n).
        { destruct (find hay needle); simpl; split; congruence. }
        rewrite IH, occurs_at_S. split; intros [Hn Hmin]; (split; [done|]).
        -- intros [|m] Hm; [apply occurs_at_0 in Hm; congruence|].
           apply occurs_at_S, Hmin in Hm. lia.
        -- intros m Hm. apply (occurs_at_S m needle a), Hmin in Hm. lia.
Qed.

Lemma find_None hay needle : find hay needle = None ↔ ¬ Substring needle hay.
Proof.
  rewrite Substring_occurs. induction hay as [|a hay IH].
  - cbn [find]. destruct (is_prefix needle "") eqn:Hp.
    + apply occurs_at_0 in Hp. split; [done | intros []; eauto].
    + split; [|done]. intros _ [n Hn].
      pose proof (occurs_at_nil _ _ Hn) as ->.
      apply occurs_at_0 in Hn. congruence.
  - cbn [find]. destruct (is_prefix needle (String a hay)) eqn:Hp.
    + apply occurs_at_0 in Hp. split; [done | intros []; eauto].
    + transitivity (find hay needle = None).
      { by destruct (find hay needle). }
      rewrite IH. split; intros Hno [n Hn]; apply Hno.
      * destruct n as [|n]; [apply occurs_at_0 in Hn; congruence|].
        exists n. by apply occurs_at_S in Hn.
      * exists (S n). by apply occurs_at_S.
Qed.

Lemma find_is_Some hay needle :
  is_Some (find hay needle) ↔ Substring needle hay.
Proof.
  destruct (find hay needle) eqn:Hf.
  - split; [intros _ | by eauto].
    apply find_Some in Hf as [Hf _]. apply Substring_occurs. eauto.
  - apply find_None in Hf. split; [by intros [] | done].
Qed.

(** The position [find] returns leaves room for the needle, so the
    [substr] call of [keep_class_members] never throws. *)
Lemma find_in_range hay needle n :
  find hay needle = Some n → n + String.length needle ≤ String.length hay.
Proof.
  intros [(pre & post & -> & <-) _]%find_Some.
  rewrite !app_length. lia.
Qed.

Lemma substr_app pre s : substr (pre +:+ s) (String.length pre) = s.
Proof. induction pre as [|a pre IH]; [by destruct s | done]. Qed.

(** What [keep_class_members] keeps of a rule: the text after the first
    occurrence of the class name. *)
Lemma find_substr hay needle n :
  find hay needle = Some n →
  ∃ pre, hay = pre +:+ needle +:+ substr hay (n + String.length needle)
         ∧ String.length pre = n.
Proof.
  intros [(pre & post & -> & <-) _]%find_Some. exists pre. split; [|done].
  by rewrite <- app_length, <- app_assoc, substr_app, app_assoc.
Qed.

Lemma has_char_app a s t : has_char a (s +:+ t) ↔ has_char a s ∨ has_char a t.
Proof.
  induction s as [|b s IH]; [simpl; rewrite app_nil; tauto|].
  rewrite app_cons. simpl. rewrite IH. tauto.
Qed.

Lemma has_char_Substring a s : has_char a s ↔ Substring (String a "") s.
Proof.
  split.
  - induction s as [|b s IH]; [done|]. intros [->|Hs].
    + by exists "", s.
    + destruct (IH Hs) as (pre & post & ->). by exists (String b pre), post.
  - intros (pre & post & ->). rewrite !has_char_app. simpl. tauto.
Qed.

Lemma find_char_None a s : find s (String a "") = None ↔ ¬ has_char a s.
Proof. by rewrite find_None, has_char_Substring. Qed.

Lemma c_str_no_NUL s : ¬ has_char NUL (c_str s).
Proof.
  induction s as [|a s IH]; simpl; [tauto|].
  case_decide; simpl; [tauto|]. intros [?|?]; [congruence | tauto].
Qed.

Lemma c_str_id s : ¬ has_char NUL s → c_str s = s.
Proof.
  induction s as [|a s IH]; simpl; [done|]. intros Hs.
  case_decide; [subst; tauto|]. f_equal. tauto.
Qed.

Lemma c_str_idemp s : c_str (c_str s) = c_str s.
Proof. apply c_str_id, c_str_no_NUL. Qed.

Lemma has_char_replace a from to s :
  has_char a (replace from to s) → a = to ∨ has_char a s.
Proof.
  induction s as [|b s IH]; simpl; [tauto|].
  intros [->|Hs]; [case_decide; tauto | tauto].
Qed.

Lemma replace_length from to s :
  String.length (replace from to s) = String.length s.
Proof. induction s as [|b s IH]; simpl; congruence. Qed.

Lemma replace_no_from from to s :
  from ≠ to → ¬ has_char from (replace from to s).
Proof.
  intros Hne. induction s as [|b s IH]; simpl; [tauto|].
  intros [Heq|?]; [|tauto]. case_decide; congruence.
Qed.
End strings.

(* ===================================================================== *)
(** ** Reachability state: order and queries *)
(* ===================================================================== *)

#[global] Instance rstate_le_refl : Reflexive rstate_le.
Proof. intros r. unfold rstate_le. tauto. Qed.

#[global] Instance rstate_le_trans : Transitive rstate_le.
Proof. intros r1 r2 r3. unfold rstate_le. tauto. Qed.

Lemma ref_by_type_le r : rstate_le r (ref_by_type r).
Proof. unfold rstate_le. simpl. tauto. Qed.

Lemma ref_by_string_le from_code r : rstate_le r (ref_by_string from_code r).
Proof. unfold rstate_le. destruct from_code; simpl; tauto. Qed.

Lemma ref_by_seed_le r : rstate_le r (ref_by_seed r).
Proof. unfold rstate_le. simpl. tauto. Qed.

Create HintDb rstate.
#[global] Hint Resolve ref_by_type_le ref_by_string_le ref_by_seed_le : rstate.



Lemma ref_by_type_idemp r : ref_by_type (ref_by_type r) = ref_by_type r.
Proof. done. Qed.

Lemma ref_by_string_idemp b r :
  ref_by_string b (ref_by_string b r) = ref_by_string b r.
Proof. by destruct b. Qed.

(* ===================================================================== *)
(** ** Entity graph: order on class records and tables *)
(* ===================================================================== *)

Section order.
Context {T : Type} `{HasRState T}.
Hypothesis get_with : ∀ r (m : T), rstate_of (with_rstate r m) = r.

Lemma member_le_refl_list (l : list T) : Forall2 member_le l l.
Proof. apply Forall2_same_length_lookup_2; [done|]. intros i x y ? ?.
  simplify_eq. unfold member_le. done. Qed.

Lemma member_le_trans_list (l1 l2 l3 : list T) :
  Forall2 member_le l1 l2 → Forall2 member_le l2 l3 → Forall2 member_le l1 l3.
Proof.
  intros H12. revert l3. induction H12; intros l3 H23; inversion H23; subst;
    constructor; [unfold member_le in *; by etrans | eauto].
Qed.


End order.

Lemma method_get_with r (m : DexMethod.t) : rstate_of (with_rstate r m) = r.
Proof. done. Qed.

Lemma field_get_with r (f : DexField.t) : rstate_of (with_rstate r f) = r.
Proof. done. Qed.

#[global] Instance cls_le_refl : Reflexive cls_le.
Proof. intros cls. split; try apply member_le_refl_list. done. Qed.

#[global] Instance cls_le_trans : Transitive cls_le.
Proof.
  intros c1 c2 c3 [] []. split; try (by eapply member_le_trans_list). by etrans.
Qed.

#[global] Instance table_le_refl : Reflexive table_le.
Proof. intros h c cls Hc. by exists cls. Qed.

#[global] Instance table_le_trans : Transitive table_le.
Proof.
  intros h1 h2 h3 H12 H23 c cls Hc.
  destruct (H12 _ _ Hc) as (cls2 & Hc2 & ?).
  destruct (H23 _ _ Hc2) as (cls3 & Hc3 & ?).
  exists cls3. split; [done | by etrans].
Qed.









(* ===================================================================== *)
(** ** Cascading and non-cascading marks on one class *)
(* ===================================================================== *)

Lemma entity_rstate_cascade op c (h : ClassTable) e :
  entity_class e = c →
  entity_rstate (alter (cascade op) c h) e = op <$> entity_rstate h e.
Proof.
  intros <-. destruct e as [c|c i|c i|c i|c i]; simpl;
    rewrite lookup_alter_eq; destruct (h !! c) as [cls|]; simpl; try done;
    rewrite list_lookup_fmap;
    match goal with |- context [?l !! i] => by destruct (l !! i) end.
Qed.

Lemma entity_rstate_alter_ne (f : DexClass.t → DexClass.t) c (h : ClassTable) e :
  entity_class e ≠ c → entity_rstate (alter f c h) e = entity_rstate h e.
Proof.
  intros Hne. destruct e; simpl in *; by rewrite lookup_alter_ne.
Qed.

(** C6.  For a class [c] of the table, [mark_reachable_directly] applies
    [ref_by_type] to [c] and to every method and field declared on [c], so
    [type_referenced] holds on all of them afterwards; the state of every
    entity of another class, and every other class record, is unchanged. *)
Theorem mark_reachable_directly_cascades (h : ClassTable) (c : string)
    (cls : DexClass.t) :
  h !! c = Some cls →
  let h' := mark_reachable_directly (Some c) h in
  (∃ cls', h' !! c = Some cls'
           ∧ type_referenced (DexClass.rstate cls') = true)
  ∧ (∀ e, entity_class e = c →
          entity_rstate h' e = ref_by_type <$> entity_rstate h e)
  ∧ (∀ e r', entity_class e = c → entity_rstate h' e = Some r' →
             type_referenced r' = true)
  ∧ (∀ e, entity_class e ≠ c → entity_rstate h' e = entity_rstate h e)
  ∧ (∀ c', c' ≠ c → h' !! c' = h !! c').
Proof.
  intros Hc h'. subst h'. simpl. split_and!.
  - exists (cascade ref_by_type cls). by rewrite lookup_alter_eq, Hc.
  - intros e He. by apply entity_rstate_cascade.
  - intros e r' He. rewrite (entity_rstate_cascade _ _ _ _ He).
    destruct (entity_rstate h e); intros [= <-]. done.
  - intros e He. by apply entity_rstate_alter_ne.
  - intros c' Hne. by rewrite lookup_alter_ne.
Qed.

(** C7.  For a class [c] of the table, [mark_reachable_by_seed] sets the seed
    fact on [c]: afterwards [is_seed] holds and [can_delete] and [can_rename]
    are false on [c], the other three facts of [c] are as before, the four
    member vectors of [c] are unchanged, and so is every entity other than
    the class [c] itself.  The overload on a type does the same. *)
Theorem mark_reachable_by_seed_only (h : ClassTable) (c : string)
    (cls : DexClass.t) :
  h !! c = Some cls →
  let h' := mark_reachable_by_seed (Some c) h in
  (∃ cls', h' !! c = Some cls'
     ∧ is_seed (DexClass.rstate cls') = true
     ∧ can_delete (DexClass.rstate cls') = false
     ∧ can_rename (DexClass.rstate cls') = false
     ∧ type_referenced (DexClass.rstate cls') = type_referenced (DexClass.rstate cls)
     ∧ string_referenced_from_code (DexClass.rstate cls')
       = string_referenced_from_code (DexClass.rstate cls)
     ∧ string_referenced_external (DexClass.rstate cls')
       = string_referenced_external (DexClass.rstate cls)
     ∧ DexClass.get_dmethods cls' = DexClass.get_dmethods cls
     ∧ DexClass.get_vmethods cls' = DexClass.get_vmethods cls
     ∧ DexClass.get_sfields cls' = DexClass.get_sfields cls
     ∧ DexClass.get_ifields cls' = DexClass.get_ifields cls)
  ∧ (∀ e, e ≠ EClass c → entity_rstate h' e = entity_rstate h e)
  ∧ (∀ c', c' ≠ c → h' !! c' = h !! c')
  ∧ mark_reachable_by_seed_type (Some c) h = h'.
Proof.
  intros Hc h'. subst h'. simpl. split_and!.
  - exists (on_rstate ref_by_seed cls). rewrite lookup_alter_eq, Hc.
    split_and!; try done; simpl.
    + unfold can_delete. simpl. by rewrite !orb_true_r.
    + unfold can_rename. simpl. by rewrite !orb_true_r.
  - intros e He. destruct (decide (entity_class e = c)) as [<-|Hne].
    + destruct e; simpl in *; try congruence; rewrite lookup_alter_eq, Hc; done.
    + by apply entity_rstate_alter_ne.
  - intros c' Hne. by rewrite lookup_alter_ne.
  - unfold mark_reachable_by_seed_type, type_class_internal.
    case_decide as Hs; [done|]. destruct Hs. eauto.
Qed.

(* ===================================================================== *)
(** ** Loops over the scope *)
(* ===================================================================== *)

(** A loop that rewrites each visited class in place with a step that is
    idempotent on the class leaves [f c cls] at every class in scope and
    touches no other class, whatever the order and the repetitions. *)
Lemma foldl_alter_lookup (f : string → DexClass.t → DexClass.t)
    (scope : Scope) (h : ClassTable) (c : string) :
  (∀ cls, f c (f c cls) = f c cls) →
  foldl (λ h cls, alter (f cls) cls h) h scope !! c
  = if decide (c ∈ scope) then f c <$> h !! c else h !! c.
Proof.
  intros Hidem. revert h. induction scope as [|x scope IH]; intros h; simpl.
  - done.
  - rewrite IH. destruct (decide (x = c)) as [->|Hne].
    + rewrite lookup_alter_eq. rewrite (decide_True (P := c ∈ c :: scope)) by set_solver.
      case_decide; [|done]. destruct (h !! c); simpl; [|done]. by rewrite Hidem.
    + rewrite lookup_alter_ne by done.
      destruct (decide (c ∈ scope)) as [Hin|Hin].
      * rewrite decide_True; [done | by right].
      * rewrite decide_False; [done|]. intros [?|?]%elem_of_cons; congruence.
Qed.

(* ===================================================================== *)
(** ** keep_methods *)
(* ===================================================================== *)

Lemma keep_methods_cls_idemp S cls :
  keep_methods_cls S (keep_methods_cls S cls) = keep_methods_cls S cls.
Proof.
  unfold keep_methods_cls. simpl. f_equal; rewrite <- list_fmap_compose;
    apply list_fmap_ext; intros i m _; simpl;
    (destruct (decide (DexMethod.get_name m ∈ S)) as [Hm|Hm]; simpl;
     [rewrite decide_True by done | rewrite decide_False by done]; [|done]);
    unfold on_rstate; simpl; f_equal; apply ref_by_string_idemp.
Qed.

Lemma keep_methods_list ms (l : list DexMethod.t) :
  Forall2 (method_kept ms) l
    ((λ m, if decide (DexMethod.get_name m ∈ (list_to_set ms : gset string))
           then on_rstate (ref_by_string false) m else m) <$> l).
Proof.
  induction l as [|m l IH]; constructor; [|done].
  unfold method_kept. case_decide as Hm; rewrite elem_of_list_to_set in Hm;
    simpl; auto.
Qed.

(** C8.  [keep_methods] applies [ref_by_string(false)] to a direct or virtual
    method of a class in scope if and only if the name of the method is one
    of the configured names; names are kept, and the fields, the class state
    and all classes out of scope are unchanged. *)
Theorem keep_methods_exact_name (scope : Scope) (ms : list string)
    (h : ClassTable) (c : string) (cls : DexClass.t) :
  h !! c = Some cls →
  let h' := keep_methods scope ms h in
  (c ∈ scope →
   ∃ cls', h' !! c = Some cls'
     ∧ Forall2 (method_kept ms) (DexClass.get_dmethods cls) (DexClass.get_dmethods cls')
     ∧ Forall2 (method_kept ms) (DexClass.get_vmethods cls) (DexClass.get_vmethods cls')
     ∧ DexClass.get_sfields cls' = DexClass.get_sfields cls
     ∧ DexClass.get_ifields cls' = DexClass.get_ifields cls
     ∧ DexClass.rstate cls' = DexClass.rstate cls
     ∧ DexClass.get_super_class cls' = DexClass.get_super_class cls)
  ∧ (c ∉ scope → h' !! c = Some cls).
Proof.
  intros Hc h'. subst h'. unfold keep_methods.
  rewrite (foldl_alter_lookup (λ _, keep_methods_cls (list_to_set ms)))
    by apply keep_methods_cls_idemp.
  rewrite Hc. split; intros Hs.
  - rewrite decide_True by done. eexists. split; [done|]. simpl.
    split_and!; try done; apply keep_methods_list.
  - by rewrite decide_False by done.
Qed.

(* ===================================================================== *)
(** ** keep_class_members *)
(* ===================================================================== *)

Section keep_class_members.
Implicit Types (rem_str name : string) (fs : list DexField.t)
  (rs : ReferencedState) (cls : DexClass.t) (rules : list string).

Local Arguments mark_only_reachable_directly : simpl never.

(** The sweep over the static fields in closed form. *)
Lemma keep_class_members_sfields_eq rem_str fs rs :
  keep_class_members_sfields rem_str fs rs
  = ((λ f, match find rem_str (DexField.get_name f) with
           | Some _ => mark_only_reachable_directly f
           | None => f
           end) <$> fs,
     if existsb (λ f, bool_decide (is_Some (find rem_str (DexField.get_name f)))) fs
     then ref_by_type rs else rs).
Proof.
  revert rs. induction fs as [|f fs IH]; intros rs; simpl; [done|].
  destruct (find rem_str (DexField.get_name f)) as [pos|] eqn:Hf.
  - rewrite IH. rewrite bool_decide_eq_true_2 by eauto. simpl.
    by destruct (existsb _ fs).
  - rewrite IH. rewrite bool_decide_eq_false_2 by (by intros []). done.
Qed.

Lemma keep_class_members_cls_idemp rem_str cls :
  keep_class_members_cls rem_str (keep_class_members_cls rem_str cls)
  = keep_class_members_cls rem_str cls.
Proof.
  unfold keep_class_members_cls. rewrite !keep_class_members_sfields_eq. simpl.
  f_equal.
  - rewrite <- list_fmap_compose. apply list_fmap_ext. intros i f _. simpl.
    destruct (find rem_str (DexField.get_name f)) eqn:Hf; [|by rewrite Hf].
    unfold mark_only_reachable_directly, on_rstate. simpl. by rewrite Hf.
  - set (any := existsb _ (DexClass.get_sfields cls)).
    assert (existsb
      (λ f, bool_decide (is_Some (find rem_str (DexField.get_name f))))
      ((λ f, match find rem_str (DexField.get_name f) with
             | Some _ => mark_only_reachable_directly f
             | None => f
             end)
         <$> DexClass.get_sfields cls) = any) as ->.
    { subst any. induction (DexClass.get_sfields cls) as [|f fs IH]; [done|].
      rewrite fmap_cons. cbn [existsb]. rewrite IH. f_equal.
      destruct (find rem_str (DexField.get_name f)) eqn:Hf; [|by rewrite Hf].
      unfold mark_only_reachable_directly, on_rstate. simpl. by rewrite Hf. }
    by destruct any.
Qed.

Lemma keep_class_members_rules_eq rules name cls :
  keep_class_members_rules rules name cls
  = match rule_remainder rules name with
    | Some rem_str => keep_class_members_cls rem_str cls
    | None => cls
    end.
Proof.
  induction rules as [|r rules IH]; simpl; [done|].
  by destruct (find (c_str r) name).
Qed.

Lemma keep_class_members_rules_idemp rules name cls :
  keep_class_members_rules rules name (keep_class_members_rules rules name cls)
  = keep_class_members_rules rules name cls.
Proof.
  rewrite !keep_class_members_rules_eq.
  destruct (rule_remainder rules name); [|done].
  apply keep_class_members_cls_idemp.
Qed.

Lemma rule_remainder_None rules name :
  Forall (λ r, ¬ Substring name (c_str r)) rules →
  rule_remainder rules name = None.
Proof.
  induction 1 as [|r rules Hr _ IH]; simpl; [done|].
  apply find_None in Hr. by rewrite Hr.
Qed.

Lemma rule_remainder_app (rs1 rs2 : list string) name :
  Forall (λ r, ¬ Substring name (c_str r)) rs1 →
  rule_remainder (rs1 ++ rs2) name = rule_remainder rs2 name.
Proof.
  induction 1 as [|r rules Hr _ IH]; simpl; [done|].
  apply find_None in Hr. by rewrite Hr.
Qed.

Lemma selected_rule_remainder rules name rem_str :
  selected_rule name rules rem_str → rule_remainder rules name = Some rem_str.
Proof.
  intros (rs1 & r & rs2 & pre & -> & Hrs1 & Hr & Hmin).
  rewrite rule_remainder_app by done. simpl.
  assert (find (c_str r) name = Some (String.length pre)) as ->.
  { apply find_Some. split; [|done]. by exists pre, rem_str. }
  rewrite Hr. f_equal.
  by rewrite <- app_length, <- app_assoc, substr_app.
Qed.

Lemma rule_remainder_selected rules name rem_str :
  rule_remainder rules name = Some rem_str → selected_rule name rules rem_str.
Proof.
  induction rules as [|r rules IH]; simpl; [done|].
  destruct (find (c_str r) name) as [pos|] eqn:Hf.
  - intros [= <-]. destruct (find_substr _ _ _ Hf) as (pre & Hpre & Hlen).
    exists [], r, rules, pre. split_and!; try done.
    intros m Hm. apply find_Some in Hf as [_ Hmin]. rewrite Hlen. auto.
  - intros (rs1 & r' & rs2 & pre & -> & ? & ? & ?)%IH.
    exists (r :: rs1), r', rs2, pre. split_and!; try done.
    constructor; [by apply find_None | done].
Qed.

Lemma rule_remainder_None_inv rules name :
  rule_remainder rules name = None →
  Forall (λ r, ¬ Substring name (c_str r)) rules.
Proof.
  induction rules as [|r rules IH]; simpl; [by constructor|].
  destruct (find (c_str r) name) eqn:Hf; [done|].
  intros Hrest. constructor; [by apply find_None | auto].
Qed.

Lemma keep_class_members_sfields_kept rem_str fs rs :
  Forall2 (field_kept rem_str) fs (keep_class_members_sfields rem_str fs rs).1.
Proof.
  rewrite keep_class_members_sfields_eq. simpl.
  induction fs as [|f fs IH]; constructor; [|done].
  unfold field_kept. destruct (find rem_str (DexField.get_name f)) eqn:Hf.
  - split; [done|]. left. split; [|done]. apply find_is_Some. by rewrite Hf.
  - split; [done|]. right. split; [|done]. by apply find_None.
Qed.

Lemma keep_class_members_sfields_rstate rem_str fs rs :
  (Exists (λ f, Substring (DexField.get_name f) rem_str) fs
   ∧ (keep_class_members_sfields rem_str fs rs).2 = ref_by_type rs)
  ∨ (Forall (λ f, ¬ Substring (DexField.get_name f) rem_str) fs
     ∧ (keep_class_members_sfields rem_str fs rs).2 = rs).
Proof.
  rewrite keep_class_members_sfields_eq. simpl.
  induction fs as [|f fs IH]; simpl; [by right|].
  destruct (find rem_str (DexField.get_name f)) eqn:Hf.
  - rewrite bool_decide_eq_true_2 by eauto. simpl. left. split; [|done].
    left. apply find_is_Some. by rewrite Hf.
  - rewrite bool_decide_eq_false_2 by (by intros []). simpl.
    apply find_None in Hf. destruct IH as [[??]|[??]]; [left|right]; split; auto.
Qed.
End keep_class_members.

(** C1, as amended.  [keep_class_members] visits every class of the scope,
    in scope order, and skips none.  For a class [c] it tries the configured
    rules in order and stops at the first rule whose text contains the
    descriptor of [c]; later rules are not tried for [c], and the same rule
    stays available to the other classes.  With [rem_str] the text of that
    rule after the first occurrence of the descriptor: every static field of
    [c] whose name occurs in [rem_str] gets [ref_by_type], the class itself
    gets [ref_by_type] exactly when some static field matched, and its
    methods and instance fields are left as they were (no cascade).  A class
    that is not in scope, or whose descriptor occurs in no rule, is left as
    it was.  One of the two cases, no rule or a selected rule, always
    applies. *)
Theorem keep_class_members_first_rule (scope : Scope) (rules : list string)
    (h : ClassTable) (c : string) (cls : DexClass.t) :
  h !! c = Some cls →
  let h' := keep_class_members scope rules h in
  (c ∉ scope → h' !! c = Some cls)
  ∧ (Forall (λ r, ¬ Substring c (c_str r)) rules → h' !! c = Some cls)
  ∧ (c ∈ scope → ∀ rem_str, selected_rule c rules rem_str →
     ∃ cls', h' !! c = Some cls'
       ∧ Forall2 (field_kept rem_str) (DexClass.get_sfields cls)
                 (DexClass.get_sfields cls')
       ∧ ((Exists (λ f, Substring (DexField.get_name f) rem_str)
                  (DexClass.get_sfields cls)
           ∧ DexClass.rstate cls' = ref_by_type (DexClass.rstate cls))
          ∨ (Forall (λ f, ¬ Substring (DexField.get_name f) rem_str)
                    (DexClass.get_sfields cls)
             ∧ DexClass.rstate cls' = DexClass.rstate cls))
       ∧ DexClass.get_dmethods cls' = DexClass.get_dmethods cls
       ∧ DexClass.get_vmethods cls' = DexClass.get_vmethods cls
       ∧ DexClass.get_ifields cls' = DexClass.get_ifields cls
       ∧ DexClass.get_super_class cls' = DexClass.get_super_class cls)
  ∧ (Forall (λ r, ¬ Substring c (c_str r)) rules
     ∨ ∃ rem_str, selected_rule c rules rem_str).
Proof.
  intros Hc h'. subst h'. unfold keep_class_members.
  rewrite (foldl_alter_lookup (keep_class_members_rules rules))
    by apply keep_class_members_rules_idemp.
  rewrite Hc. split_and!.
  - intros Hs. by rewrite decide_False by done.
  - intros Hno. case_decide; [|done]. simpl.
    by rewrite keep_class_members_rules_eq, rule_remainder_None.
  - intros Hs rem_str Hsel. rewrite decide_True by done. simpl.
    rewrite keep_class_members_rules_eq, (selected_rule_remainder _ _ _ Hsel).
    eexists. split; [done|]. unfold keep_class_members_cls.
    pose proof (keep_class_members_sfields_kept rem_str
                  (DexClass.get_sfields cls) (DexClass.rstate cls)) as Hk.
    pose proof (keep_class_members_sfields_rstate rem_str
                  (DexClass.get_sfields cls) (DexClass.rstate cls)) as Hr.
    destruct (keep_class_members_sfields _ _ _) as [fs' rs']. simpl in *.
    split_and!; done.
  - destruct (rule_remainder rules c) as [rem_str|] eqn:Hrem.
    + right. exists rem_str. by apply rule_remainder_selected.
    + left. by apply rule_remainder_None_inv.
Qed.

(* ===================================================================== *)
(** ** in_reflected_pkg *)
(* ===================================================================== *)

Section in_reflected_pkg.
Variables (h : ClassTable) (set : gset string).

Lemma in_reflected_pkg_hit fuel c :
  c ∈ set → in_reflected_pkg (S fuel) h (Some c) set = Some true.
Proof. intros Hc. simpl. by rewrite decide_True. Qed.

Lemma in_reflected_pkg_up fuel c :
  c ∉ set →
  in_reflected_pkg (S fuel) h (Some c) set
  = in_reflected_pkg fuel h
      (type_class_internal h (h !! c ≫= DexClass.get_super_class)) set.
Proof. intros Hc. simpl. by rewrite decide_False. Qed.

Lemma super_of_fun c p p' : super_of h c p → super_of h c p' → p = p'.
Proof. unfold super_of. congruence. Qed.

(** More fuel does not change a result. *)
Lemma in_reflected_pkg_mono fuel fuel' d b :
  fuel ≤ fuel' →
  in_reflected_pkg fuel h d set = Some b →
  in_reflected_pkg fuel' h d set = Some b.
Proof.
  revert fuel' d. induction fuel as [|fuel IH]; intros fuel' d Hle; [done|].
  destruct fuel' as [|fuel']; [lia|]. destruct d as [c|]; [|done].
  destruct (decide (c ∈ set)) as [Hc|Hc].
  - by rewrite !in_reflected_pkg_hit.
  - rewrite !in_reflected_pkg_up by done. apply IH. lia.
Qed.

(** A call has at most one result. *)
Lemma in_reflected_pkg_returns_fun d b b' :
  in_reflected_pkg_returns h d set b →
  in_reflected_pkg_returns h d set b' → b = b'.
Proof.
  intros [fuel Hb] [fuel' Hb'].
  apply (in_reflected_pkg_mono _ (fuel `max` fuel')) in Hb; [|lia].
  apply (in_reflected_pkg_mono _ (fuel `max` fuel')) in Hb'; [|lia].
  congruence.
Qed.
End in_reflected_pkg.

(** Whatever [in_reflected_pkg] returns is right. *)
Lemma in_reflected_pkg_sound fuel h c set b :
in_reflected_pkg fuel h (Some c) set = Some b → (b = true ↔ reaches h set c).
Proof.
revert c. induction fuel as [|fuel IH]; intros c; [done|].
destruct (decide (c ∈ set)) as [Hc|Hc].
- rewrite in_reflected_pkg_hit by done. intros [= <-].
  split; [|done]. intros _. exists c. split; [reflexivity | done].
- rewrite in_reflected_pkg_up by done.
  destruct (type_class_internal h (h !! c ≫= DexClass.get_super_class))
    as [p|] eqn:Hp.
  + intros Hb%IH. rewrite Hb. split; intros (a & Hrtc & Ha); exists a;
      (split; [|done]).
    * by eapply rtc_l.
    * destruct (rtc_inv _ _ Hrtc) as [->|(p' & Hp' & ?)]; [done|].
      by rewrite (super_of_fun _ _ _ _ Hp Hp').
  + destruct fuel; [done|]. simpl. intros [= <-]. split; [done|].
    intros (a & Hrtc & Ha).
    destruct (rtc_inv _ _ Hrtc) as [->|(p' & Hp' & ?)]; [done|].
    unfold super_of in Hp'. congruence.
Qed.

Lemma in_reflected_pkg_reaches (h : ClassTable) (set : gset string) c :
  reaches h set c → ∃ fuel, in_reflected_pkg fuel h (Some c) set = Some true.
Proof.
  intros (a & Hrtc & Ha). induction Hrtc as [c|c p a Hcp _ IH].
  - exists 1. by apply in_reflected_pkg_hit.
  - destruct (IH Ha) as [fuel Hfuel]. exists (S fuel).
    destruct (decide (c ∈ set)).
    + by apply in_reflected_pkg_hit.
    + rewrite in_reflected_pkg_up by done. unfold super_of in Hcp.
      by rewrite Hcp.
Qed.

(** A chain that ends gives a result. *)
Lemma in_reflected_pkg_chain_ends (h : ClassTable) (set : gset string) c :
  chain_ends h c → ∃ b, in_reflected_pkg_returns h (Some c) set b.
Proof.
  intros (d & Hrtc & Hd). induction Hrtc as [d|c p d Hcp _ IH].
  - destruct (decide (d ∈ set)).
    + exists true, 1. by apply in_reflected_pkg_hit.
    + exists false, 2. by rewrite in_reflected_pkg_up, Hd.
  - destruct (IH Hd) as (b & fuel & Hfuel).
    destruct (decide (c ∈ set)).
    + exists true, 1. by apply in_reflected_pkg_hit.
    + exists b, (S fuel). rewrite in_reflected_pkg_up by done.
      unfold super_of in Hcp. by rewrite Hcp.
Qed.

(** A result comes from a class of the set on the chain or from the end of
    the chain. *)
Lemma in_reflected_pkg_returns_inv (h : ClassTable) (set : gset string) fuel c b :
  in_reflected_pkg fuel h (Some c) set = Some b →
  reaches h set c ∨ chain_ends h c.
Proof.
  revert c. induction fuel as [|fuel IH]; intros c; [done|].
  destruct (decide (c ∈ set)) as [Hc|Hc].
  { intros _. left. exists c. split; [reflexivity | done]. }
  rewrite in_reflected_pkg_up by done.
  destruct (type_class_internal h (h !! c ≫= DexClass.get_super_class))
    as [p|] eqn:Hp.
  - intros [(a & Hrtc & Ha)|(d & Hrtc & Hd)]%IH.
    + left. exists a. split; [by eapply rtc_l | done].
    + right. exists d. split; [by eapply rtc_l | done].
  - intros _. right. exists c. split; [reflexivity | done].
Qed.

(** On a chain that runs into a cycle every class has a class above it, and
    the chain above it runs into the same cycle. *)
Lemma chain_cyclic_step (h : ClassTable) c :
  chain_cyclic h c → ∃ p, super_of h c p ∧ chain_cyclic h p.
Proof.
  intros (d & Hrtc & Hcyc).
  destruct (rtc_inv _ _ Hrtc) as [->|(p & Hp & Hpd)].
  - inversion Hcyc as [? ? Hstep|? p ? Hstep Htc]; subst.
    + exists d. split; [done|]. exists d. split; [reflexivity | done].
    + exists p. split; [done|]. exists d. split; [by apply tc_rtc | done].
  - exists p. split; [done|]. by exists d.
Qed.

(** A chain ends exactly when it is well founded. *)
Lemma chain_ends_acc (h : ClassTable) c :
  chain_ends h c ↔ Acc (λ p c, super_of h c p) c.
Proof.
  split.
  - intros (d & Hrtc & Hd). induction Hrtc as [d|c p d Hcp _ IH].
    + constructor. intros p Hp. unfold super_of in Hp. congruence.
    + constructor. intros p' Hp'.
      rewrite (super_of_fun _ _ _ _ Hp' Hcp). by apply IH.
  - induction 1 as [c _ IH].
    destruct (type_class_internal h (h !! c ≫= DexClass.get_super_class))
      as [p|] eqn:Hp.
    + destruct (IH p Hp) as (d & Hrtc & Hd). exists d.
      split; [by eapply rtc_l | done].
    + exists c. split; [reflexivity | done].
Qed.

(** C2, as amended.  [in_reflected_pkg] is a recursion on the superclass
    with no cycle protection.  The call returns exactly when the superclass
    chain that starts at the class holds a class of the set (whether or not
    the chain runs into a cycle behind it) or ends at a null superclass or
    at a type without class definition; whenever it returns, it returns
    [true] exactly when the class or one of the classes above it on the chain
    is in the set.  On a chain that runs into a cycle and holds no class of
    the set no number of nested calls gives a result. *)
Theorem in_reflected_pkg_returns_exactly (h : ClassTable)
    (set : gset string) (c : string) :
  ((∃ b, in_reflected_pkg_returns h (Some c) set b)
   ↔ reaches h set c ∨ chain_ends h c)
  ∧ (∀ b, in_reflected_pkg_returns h (Some c) set b →
          (b = true ↔ reaches h set c))
  ∧ (chain_cyclic h c → ¬ reaches h set c →
     ∀ fuel, in_reflected_pkg fuel h (Some c) set = None).
Proof.
  split_and!.
  - split.
    + intros (b & fuel & Hfuel). by eapply in_reflected_pkg_returns_inv.
    + intros [Hin|Hend].
      * exists true. by apply in_reflected_pkg_reaches.
      * by apply in_reflected_pkg_chain_ends.
  - intros b [fuel Hfuel]. by eapply in_reflected_pkg_sound.
  - intros Hcyc Hno fuel. revert c Hcyc Hno.
    induction fuel as [|fuel IH]; intros c Hcyc Hno; [done|].
    destruct (chain_cyclic_step h c Hcyc) as (p & Hp & Hcyc').
    rewrite in_reflected_pkg_up.
    + unfold super_of in Hp. rewrite Hp. apply IH; [done|].
      intros (a & Hrtc & Ha). apply Hno. exists a.
      split; [by eapply rtc_l | done].
    + intros Hc. apply Hno. exists c. split; [reflexivity | done].
Qed.

(* ===================================================================== *)
(** ** Reflected packages *)
(* ===================================================================== *)

Lemma starts_with_spec str prefix :
  starts_with str prefix = true ↔ ∃ rest, str = prefix +:+ rest.
Proof. apply is_prefix_spec. Qed.

Lemma elem_of_seed_inner (pkgs : list string) (clazz x : string) (set : gset string) :
  x ∈ foldl (λ set pkg,
               if starts_with clazz (c_str pkg) then {[clazz]} ∪ set else set)
            set pkgs
  ↔ x ∈ set ∨ (x = clazz ∧ ∃ pkg, pkg ∈ pkgs ∧ starts_with clazz (c_str pkg) = true).
Proof.
  revert set. induction pkgs as [|pkg pkgs IH]; intros set; simpl.
  - split; [by left | intros [?|(_ & ? & []%elem_of_nil & _)]; done].
  - rewrite IH. destruct (starts_with clazz (c_str pkg)) eqn:Hsw.
    + rewrite elem_of_union, elem_of_singleton. split.
      * intros [[->|?]|(-> & pkg' & ? & ?)]; eauto 6 using list_elem_of_here, list_elem_of_further.
      * intros [?|(-> & _)]; auto.
    + split.
      * intros [?|(-> & pkg' & ? & ?)]; eauto 6 using list_elem_of_further.
      * intros [?|(-> & pkg' & [->|?]%elem_of_cons & ?)]; [auto | congruence | eauto 6].
Qed.

Lemma elem_of_seed_reflected_packages (scope : Scope) (pkgs : list string) (c : string) :
  c ∈ seed_reflected_packages scope pkgs
  ↔ c ∈ scope ∧ ∃ pkg, pkg ∈ pkgs ∧ ∃ rest, c = c_str pkg +:+ rest.
Proof.
  unfold seed_reflected_packages.
  assert (∀ set : gset string,
    c ∈ foldl (λ set clazz,
                 foldl (λ set pkg,
                          if starts_with clazz (c_str pkg) then {[clazz]} ∪ set
                          else set) set pkgs) set scope
    ↔ c ∈ set ∨ (c ∈ scope ∧ ∃ pkg, pkg ∈ pkgs ∧ starts_with c (c_str pkg) = true))
    as Hgen.
  { induction scope as [|x scope IH]; intros set; simpl.
    - split; [by left | intros [?|[[]%elem_of_nil _]]; done].
    - rewrite IH, elem_of_seed_inner. split.
      + intros [[?|(-> & ?)]|(? & ?)]; eauto using list_elem_of_here, list_elem_of_further.
      + intros [?|([->|?]%elem_of_cons & ?)]; eauto. }
  rewrite Hgen. split.
  - intros [Hc|(Hs & pkg & Hpkg & Hsw)]; [by apply not_elem_of_empty in Hc|].
    apply starts_with_spec in Hsw. eauto.
  - intros (Hs & pkg & Hpkg & Hsw). right.
    apply starts_with_spec in Hsw. eauto.
Qed.

(** C10.  A class is put in the reflected set by the seeding loop exactly
    when it is in scope and its descriptor starts with one of the configured
    prefixes, taken as they are; hence no class descriptor is seeded when
    every prefix is in external dotted form. *)
Theorem reflected_prefix_compared_verbatim (scope : Scope) (pkgs : list string)
    (c : string) :
  (c ∈ seed_reflected_packages scope pkgs
   ↔ c ∈ scope ∧ ∃ pkg, pkg ∈ pkgs ∧ ∃ rest, c = c_str pkg +:+ rest)
  ∧ (class_descriptor c →
     (∀ pkg, pkg ∈ pkgs → external_dotted (c_str pkg)) →
     c ∉ seed_reflected_packages scope pkgs).
Proof.
  split; [apply elem_of_seed_reflected_packages|].
  intros (body & -> & Hdot) Hpkgs.
  rewrite elem_of_seed_reflected_packages.
  intros (_ & pkg & Hpkg & rest & Heq).
  destruct (Hpkgs pkg Hpkg) as [Hd|(a & p & Hp & Ha)].
  - assert (has_char "." (String "L" body)) as [?|?]; [|done..].
    rewrite Heq, has_char_app. by left.
  - rewrite Hp, app_cons in Heq. congruence.
Qed.

(* ===================================================================== *)
(** ** Seed ingestion *)
(* ===================================================================== *)

Lemma replace_app from to s t :
  replace from to (s +:+ t) = replace from to s +:+ replace from to t.
Proof.
  induction s as [|a s IH]; [done|]. rewrite app_cons. simpl.
  by rewrite IH, app_cons.
Qed.

Lemma descriptor_of_dotname_no_NUL line :
  ¬ has_char NUL (descriptor_of_dotname line).
Proof.
  unfold descriptor_of_dotname. simpl. rewrite has_char_app. simpl.
  intros [?|[[?|?]%has_char_replace|[?|[]]]]; try done.
  by eapply c_str_no_NUL.
Qed.

Lemma get_dextype_from_dotname_eq types line :
  get_dextype_from_dotname types (Some line)
  = get_type types (descriptor_of_dotname line).
Proof.
  unfold get_dextype_from_dotname. f_equal.
  transitivity (c_str (descriptor_of_dotname line)).
  - f_equal. unfold descriptor_of_dotname. simpl. by rewrite replace_app.
  - apply c_str_id, descriptor_of_dotname_no_NUL.
Qed.

Lemma alter_absent (f : DexClass.t → DexClass.t) c (h : ClassTable) :
  h !! c = None → alter f c h = h.
Proof.
  intros Hc. apply map_eq. intros c'. rewrite lookup_alter.
  case_decide; [subst; by rewrite Hc | done].
Qed.

Lemma mark_reachable_by_seed_type_alter t (h : ClassTable) :
  mark_reachable_by_seed_type (Some t) h = alter (on_rstate ref_by_seed) t h.
Proof.
  unfold mark_reachable_by_seed_type, type_class_internal.
  case_decide as Ht; [done|]. simpl. symmetry. apply alter_absent.
  destruct (h !! t); [destruct Ht; eauto | done].
Qed.

Lemma seed_line_eq types n h line :
  seed_line types (n, h) line
  = match seed_type types line with
    | Some t => (((n + 1) mod UINT_MODULUS)%Z, alter (on_rstate ref_by_seed) t h)
    | None => (n, h)
    end.
Proof.
  unfold seed_line, seed_type.
  destruct (find line ":") eqn:Hc.
  { rewrite decide_True; [done|]. left.
    destruct (decide (has_char ":" line)) as [|Hn]; [done|].
    apply find_char_None in Hn. congruence. }
  destruct (find line "$") eqn:Hd.
  { rewrite decide_True; [done|]. right.
    destruct (decide (has_char "$" line)) as [|Hn]; [done|].
    apply find_char_None in Hn. congruence. }
  apply find_char_None in Hc, Hd. rewrite decide_False by tauto.
  rewrite get_dextype_from_dotname_eq. unfold get_type.
  case_decide; [|done]. by rewrite mark_reachable_by_seed_type_alter.
Qed.

#[local] Arguments seed_line : simpl never.
#[local] Arguments seed_type : simpl never.

Lemma foldl_seed_line types lines n h :
  (0 ≤ n < UINT_MODULUS)%Z →
  foldl (seed_line types) (n, h) lines
  = (((n + Z.of_nat (length (omap (seed_type types) lines))) mod UINT_MODULUS)%Z,
     foldl (λ h t, alter (on_rstate ref_by_seed) t h) h
           (omap (seed_type types) lines)).
Proof.
  revert n h. induction lines as [|line lines IH]; intros n h Hn; simpl.
  - f_equal. rewrite Z.add_0_r. symmetry. by apply Z.mod_small.
  - rewrite seed_line_eq. destruct (seed_type types line) as [t|]; [|by apply IH].
    rewrite IH by (apply Z.mod_pos_bound; done). cbn [omap list_omap foldl]. f_equal.
    rewrite Zplus_mod_idemp_l. f_equal.
    change (list_omap string string (seed_type types) lines)
      with (omap (seed_type types) lines).
    cbn [length]. lia.
Qed.

Lemma on_rstate_seed_idemp (cls : DexClass.t) :
  on_rstate ref_by_seed (on_rstate ref_by_seed cls) = on_rstate ref_by_seed cls.
Proof. done. Qed.

Lemma elem_of_seeded (h : ClassTable) c :
  c ∈ seeded h ↔
  ∃ cls, h !! c = Some cls ∧ seed_referenced (DexClass.rstate cls) = true.
Proof.
  unfold seeded. rewrite elem_of_dom. split.
  - intros [cls [? ?]%map_lookup_filter_Some]. eauto.
  - intros (cls & ? & ?). exists cls. by apply map_lookup_filter_Some.
Qed.

Lemma size_list_to_set_le (l : list string) :
  size (list_to_set l : gset string) ≤ length l.
Proof.
  induction l as [|x l IH]; [done|]. rewrite list_to_set_cons. cbn [length].
  destruct (decide (x ∈ (list_to_set l : gset string))) as [Hx|Hx].
  - rewrite subseteq_union_1_L; [lia|]. by apply singleton_subseteq_l.
  - rewrite size_union by (by apply disjoint_singleton_l).
    rewrite size_singleton. lia.
Qed.

(** C3, as amended.  [init_seed_classes] returns, modulo [2^32], the number
    of seed lines that hold neither [:] nor [$] and whose translated
    descriptor is a known type; lines are counted one by one, repeated lines
    included.  The seed fact gets set on the class of each such type that the
    program defines and on nothing else, so the number of classes newly
    marked is at most the count, and equals it when the resolved descriptors
    are pairwise distinct, each names a defined class not yet a seed, and
    there are fewer than [2^32] of them. *)
Theorem init_seed_classes_counts_resolved_lines (lines : list string)
    (g : RedexContext) :
  let D := omap (seed_type (g_types g)) lines in
  let r := init_seed_classes (Some lines) g in
  r.1 = (Z.of_nat (length D) mod UINT_MODULUS)%Z
  ∧ g_types r.2 = g_types g
  ∧ (∀ c, g_classes r.2 !! c
          = if decide (c ∈ D) then on_rstate ref_by_seed <$> g_classes g !! c
            else g_classes g !! c)
  ∧ seeded (g_classes r.2)
    = seeded (g_classes g) ∪ (list_to_set D ∩ dom (g_classes g))
  ∧ size (seeded (g_classes r.2) ∖ seeded (g_classes g)) ≤ length D
  ∧ (NoDup D →
     (∀ d, d ∈ D → d ∈ dom (g_classes g) ∧ d ∉ seeded (g_classes g)) →
     (Z.of_nat (length D) < UINT_MODULUS)%Z →
     r.1 = Z.of_nat (size (seeded (g_classes r.2) ∖ seeded (g_classes g)))).
Proof.
  intros D r. subst r. unfold init_seed_classes.
  rewrite foldl_seed_line by (unfold UINT_MODULUS; lia). fold D. simpl.
  assert (∀ c, foldl (λ h t, alter (on_rstate ref_by_seed) t h) (g_classes g) D !! c
               = if decide (c ∈ D) then on_rstate ref_by_seed <$> g_classes g !! c
                 else g_classes g !! c) as Hlook.
  { intros c. apply (foldl_alter_lookup (λ _, on_rstate ref_by_seed)).
    apply on_rstate_seed_idemp. }
  assert (seeded (foldl (λ h t, alter (on_rstate ref_by_seed) t h) (g_classes g) D)
          = seeded (g_classes g) ∪ (list_to_set D ∩ dom (g_classes g))) as Hseeded.
  { apply set_eq. intros c.
    rewrite elem_of_union, elem_of_intersection, elem_of_list_to_set, elem_of_dom,
      !elem_of_seeded, Hlook.
    case_decide as Hc.
    - destruct (g_classes g !! c) as [cls|]; simpl.
      + split; [intros _; right; eauto | intros _; eauto].
      + split; [by intros (? & ? & ?) | intros [(? & ? & ?)|[_ []]]; done].
    - split; [by left | intros [?|[? _]]; done]. }
  split_and!; try done.
  - rewrite Hseeded. etrans; [|apply size_list_to_set_le].
    apply subseteq_size. intros c.
    rewrite elem_of_difference, elem_of_union, elem_of_intersection. tauto.
  - intros Hnodup HD Hlen. rewrite Hseeded.
    rewrite Z.add_0_l, Z.mod_small by lia. f_equal.
    rewrite <- (size_list_to_set (C := gset string) D) by done. f_equal.
    apply set_eq. intros c.
    rewrite elem_of_difference, elem_of_union, elem_of_intersection,
      elem_of_list_to_set.
    split; [|tauto]. intros Hc. destruct (HD c Hc). tauto.
Qed.

(** C9.  Without a readable seed resource [init_seed_classes] returns 0 and
    leaves the program as it was; and a line that holds [:] or [$] is
    skipped: the count and the marks are those of the same resource without
    that line. *)
Theorem init_seed_classes_skips (g : RedexContext) :
  init_seed_classes None g = (0%Z, g)
  ∧ ∀ l1 line l2,
      has_char ":" line ∨ has_char "$" line →
      init_seed_classes (Some (l1 ++ line :: l2)) g
      = init_seed_classes (Some (l1 ++ l2)) g.
Proof.
  split; [done|]. intros l1 line l2 Hline. unfold init_seed_classes.
  rewrite !foldl_app. simpl.
  destruct (foldl (seed_line (g_types g)) (0%Z, g_classes g) l1) as [n h].
  rewrite seed_line_eq. unfold seed_type. by rewrite decide_True.
Qed.

(* ===================================================================== *)
(** ** Keep-rule class patterns *)
(* ===================================================================== *)




Lemma cascade_idemp op cls :
  (∀ r, op (op r) = op r) → cascade op (cascade op cls) = cascade op cls.
Proof.
  intros Hop. unfold cascade. simpl.
  f_equal; rewrite <- ?list_fmap_compose; try apply list_fmap_ext;
    try (intros i m _; unfold on_rstate; simpl; by rewrite Hop).
  apply Hop.
Qed.

Lemma foldl_step_ext {A B} (f g : A → B → A) a l :
  (∀ a x, f a x = g a x) → foldl f a l = foldl g a l.
Proof.
  intros Hfg. revert a. induction l as [|x l IH]; intros a; simpl; [done|].
  by rewrite Hfg, IH.
Qed.

Lemma mark_cls_patterns_lookup wild (scope : Scope) (pats : list string)
    (h : ClassTable) (c : string) :
  mark_cls_patterns wild scope pats h !! c
  = if decide (c ∈ scope)
    then (if existsb (λ pat, type_matches wild (c_str pat) c
                               (String.length pat) (strlen c)) pats
          then cascade ref_by_type else id) <$> h !! c
    else h !! c.
Proof.
  unfold mark_cls_patterns.
  rewrite (foldl_step_ext _
    (λ h clazz,
       alter (if existsb (λ pat, type_matches wild (c_str pat) clazz
                                   (String.length pat) (strlen clazz)) pats
              then cascade ref_by_type else id) clazz h)).
  - apply (foldl_alter_lookup
      (λ clazz, if existsb (λ pat, type_matches wild (c_str pat) clazz
                                     (String.length pat) (strlen clazz)) pats
                then cascade ref_by_type else id)).
    intros cls. destruct (existsb _ pats); [|done]. by apply cascade_idemp.
  - intros h' clazz. destruct (existsb _ pats); simpl; [done|].
    symmetry. by apply alter_id.
Qed.



(* ===================================================================== *)
(** ** The statements on concrete programs *)
(* ===================================================================== *)

(** C1 fails as stated: on the example of the claim no rule text contains a
    class descriptor, so nothing is marked, under descriptors and under bare
    names alike; and with a rule that holds both descriptors, both classes
    and both fields are marked by that one rule, while the methods and the
    instance field of a marked class stay unmarked. *)
Lemma keep_class_members_foo_bar :
  keep_class_members foo_scope ["FooBar"] foo_table = foo_table
  ∧ keep_class_members bare_scope ["FooBar"] bare_table = bare_table
  ∧ entity_rstate (keep_class_members foo_scope ["FooBar"] foo_table)
                  (EClass "LFoo1;") = Some fresh_rstate
  ∧ entity_rstate (keep_class_members foo_scope ["FooBar"] foo_table)
                  (ESField "LFoo1;" 0) = Some fresh_rstate
  ∧ entity_rstate (keep_class_members foo_scope ["LFoo1;LFoo2;Bar"] foo_table)
                  (EClass "LFoo2;") = Some (ref_by_type fresh_rstate)
  ∧ entity_rstate (keep_class_members foo_scope ["LFoo1;LFoo2;Bar"] foo_table)
                  (ESField "LFoo2;" 0) = Some (ref_by_type fresh_rstate)
  ∧ entity_rstate (keep_class_members foo_scope ["LFoo1;LFoo2;Bar"] foo_table)
                  (EClass "LFoo1;") = Some (ref_by_type fresh_rstate)
  ∧ entity_rstate (keep_class_members foo_scope ["LFoo1;LFoo2;Bar"] foo_table)
                  (EDMethod "LFoo1;" 0) = Some fresh_rstate
  ∧ entity_rstate (keep_class_members foo_scope ["LFoo1;LFoo2;Bar"] foo_table)
                  (EIField "LFoo1;" 0) = Some fresh_rstate.
Proof. vm_compute. repeat split. Qed.

Lemma selected_rule_foo : selected_rule "LFoo1;" ["FooBar"; "LFoo1;Bar"] "Bar".
Proof. by apply rule_remainder_selected. Defined.

Lemma keep_class_members_first_rule_witness :
  foo_table !! "LFoo1;" = Some foo_class
  ∧ ∃ cls', keep_class_members foo_scope ["FooBar"; "LFoo1;Bar"] foo_table
              !! "LFoo1;" = Some cls'
            ∧ Forall2 (field_kept "Bar") (DexClass.get_sfields foo_class)
                      (DexClass.get_sfields cls')
            ∧ DexClass.get_dmethods cls' = DexClass.get_dmethods foo_class.
Proof.
  split; [reflexivity|].
  destruct (keep_class_members_first_rule foo_scope ["FooBar"; "LFoo1;Bar"]
              foo_table "LFoo1;" foo_class eq_refl) as (_ & _ & Hsel & _).
  destruct (Hsel ltac:(by left) "Bar" selected_rule_foo)
    as (cls' & Hcls' & Hfields & _ & Hd & _).
  exists cls'. by split_and!.
Defined.

(** C2 fails as stated: on a cyclic chain with no member in the set no
    number of nested calls is enough. *)
Lemma in_reflected_pkg_cycle :
  ¬ ∃ b, in_reflected_pkg_returns cyclic_table (Some "LA;") ∅ b.
Proof.
  intros (b & fuel & Hfuel).
  assert (∀ fuel, in_reflected_pkg fuel cyclic_table (Some "LA;") ∅ = None
                  ∧ in_reflected_pkg fuel cyclic_table (Some "LB;") ∅ = None)
    as Hnone.
  { clear. induction fuel as [|fuel [IHa IHb]]; [done|].
    rewrite !in_reflected_pkg_up by apply not_elem_of_empty.
    split; [exact IHb | exact IHa]. }
  destruct (Hnone fuel) as [Ha _]. congruence.
Qed.

Lemma chain_table_acc : Acc (λ p c, super_of chain_table c p) "LB;".
Proof.
  constructor. intros p Hp. unfold super_of in Hp. vm_compute in Hp.
  injection Hp as <-.
  constructor. intros p Hp. unfold super_of in Hp. vm_compute in Hp.
  discriminate Hp.
Defined.

Lemma cyclic_table_cyclic : chain_cyclic cyclic_table "LA;".
Proof.
  exists "LA;". split; [reflexivity|].
  apply (tc_l _ _ "LB;"); [reflexivity|]. apply tc_once. reflexivity.
Defined.

Lemma in_reflected_pkg_returns_exactly_witness :
  (∃ b, in_reflected_pkg_returns cyclic_table (Some "LA;") {["LB;"]} b)
  ∧ (∀ fuel, in_reflected_pkg fuel cyclic_table (Some "LA;") ∅ = None)
  ∧ (∃ b, in_reflected_pkg_returns chain_table (Some "LB;") ∅ b).
Proof.
  split_and!.
  - apply (in_reflected_pkg_returns_exactly cyclic_table {["LB;"]} "LA;").
    left. exists "LB;". split; [|by apply elem_of_singleton].
    apply rtc_once. reflexivity.
  - apply (in_reflected_pkg_returns_exactly cyclic_table ∅ "LA;").
    + exact cyclic_table_cyclic.
    + intros (a & _ & Ha). by apply not_elem_of_empty in Ha.
  - apply (in_reflected_pkg_returns_exactly chain_table ∅ "LB;").
    right. exists "LA;". split; [|reflexivity].
    apply rtc_once. reflexivity.
Defined.

(** C3 fails as stated: a class named by two seed lines is counted twice and
    marked once, and a line naming a type the program refers to but does not
    define is counted and marks nothing. *)
Lemma init_seed_classes_overcounts :
  (init_seed_classes (Some ["com.example.Keep"; "com.example.Keep"]) keep_ctx).1
  = 2%Z
  ∧ seeded (g_classes (init_seed_classes
              (Some ["com.example.Keep"; "com.example.Keep"]) keep_ctx).2)
    = {["Lcom/example/Keep;"]}
  ∧ (init_seed_classes (Some ["java.lang.Object"]) keep_ctx).1 = 1%Z
  ∧ seeded (g_classes (init_seed_classes (Some ["java.lang.Object"]) keep_ctx).2)
    = ∅.
Proof. vm_compute. repeat split. Qed.

(** The end-to-end example of the spec: one seed entity, count 1. *)
Lemma init_seed_classes_example :
  (init_seed_classes (Some ["com.example.Keep"; "com.example.Bad:member"])
                     keep_ctx).1 = 1%Z
  ∧ seeded (g_classes (init_seed_classes
              (Some ["com.example.Keep"; "com.example.Bad:member"]) keep_ctx).2)
    = {["Lcom/example/Keep;"]}.
Proof. vm_compute. repeat split. Qed.

Lemma init_seed_classes_counts_resolved_lines_witness :
  (init_seed_classes (Some ["com.example.Keep"; "com.example.Bad:member"])
                     keep_ctx).1
  = Z.of_nat (size (seeded (g_classes (init_seed_classes
                (Some ["com.example.Keep"; "com.example.Bad:member"]) keep_ctx).2)
              ∖ seeded (g_classes keep_ctx))).
Proof.
  assert (omap (seed_type (g_types keep_ctx))
               ["com.example.Keep"; "com.example.Bad:member"]
          = ["Lcom/example/Keep;"]) as HD by (vm_compute; reflexivity).
  apply (init_seed_classes_counts_resolved_lines
           ["com.example.Keep"; "com.example.Bad:member"] keep_ctx);
    rewrite HD.
  - apply NoDup_singleton.
  - intros d ->%list_elem_of_singleton. split.
    + apply elem_of_dom. vm_compute. eauto.
    + intros (cls & Hcls & Hseed)%elem_of_seeded.
      vm_compute in Hcls. injection Hcls as <-. discriminate Hseed.
  - vm_compute. reflexivity.
Defined.


Lemma mark_reachable_directly_cascades_witness :
  foo_table !! "LFoo1;" = Some foo_class
  ∧ (∀ e r', entity_class e = "LFoo1;" →
       entity_rstate (mark_reachable_directly (Some "LFoo1;") foo_table) e = Some r' →
       type_referenced r' = true)
  ∧ (∀ e, entity_class e ≠ "LFoo1;" →
       entity_rstate (mark_reachable_directly (Some "LFoo1;") foo_table) e
       = entity_rstate foo_table e).
Proof.
  split; [reflexivity|].
  destruct (mark_reachable_directly_cascades foo_table "LFoo1;" foo_class eq_refl)
    as (_ & _ & Hset & Hframe & _).
  split; [exact Hset | exact Hframe].
Defined.

Lemma mark_reachable_by_seed_only_witness :
  foo_table !! "LFoo1;" = Some foo_class
  ∧ (∀ e, e ≠ EClass "LFoo1;" →
       entity_rstate (mark_reachable_by_seed (Some "LFoo1;") foo_table) e
       = entity_rstate foo_table e)
  ∧ entity_rstate (mark_reachable_by_seed (Some "LFoo1;") foo_table)
                  (EClass "LFoo1;") = Some (ref_by_seed fresh_rstate).
Proof.
  split; [reflexivity|].
  destruct (mark_reachable_by_seed_only foo_table "LFoo1;" foo_class eq_refl)
    as (_ & Hframe & _).
  split; [exact Hframe | reflexivity].
Defined.

Lemma keep_methods_exact_name_witness :
  activity_table !! "Lcom/example/Main;" = Some activity_class
  ∧ ∃ cls', keep_methods ["Lcom/example/Main;"] ["onCreate"] activity_table
              !! "Lcom/example/Main;" = Some cls'
     ∧ Forall2 (method_kept ["onCreate"])
               [new_method "onCreate"; new_method "onCreate2"]
               (DexClass.get_dmethods cls')
     ∧ Forall2 (method_kept ["onCreate"])
               [new_method "onCreateView"; new_method "onCreate"]
               (DexClass.get_vmethods cls').
Proof.
  split; [reflexivity|].
  destruct (keep_methods_exact_name ["Lcom/example/Main;"] ["onCreate"]
              activity_table "Lcom/example/Main;" activity_class eq_refl)
    as [Hin _].
  destruct (Hin ltac:(by left)) as (cls' & Hcls' & Hd & Hv & _).
  exists cls'. by split_and!.
Defined.

(** The end-to-end example of the spec for [keep_methods]. *)
Lemma keep_methods_example :
  keep_methods ["Lcom/example/Main;"] ["onCreate"] activity_table
  = <["Lcom/example/Main;" :=
        DexClass.mk (Some "Landroid/app/Activity;")
          [DexMethod.mk "onCreate" (ref_by_string false fresh_rstate);
           new_method "onCreate2"]
          [new_method "onCreateView";
           DexMethod.mk "onCreate" (ref_by_string false fresh_rstate)]
          [] [] fresh_rstate]> ∅.
Proof. vm_compute. reflexivity. Qed.

Lemma init_seed_classes_skips_witness :
  init_seed_classes None keep_ctx = (0%Z, keep_ctx)
  ∧ init_seed_classes (Some (["com.example.Keep"] ++ "com.example.Bad:member" :: []))
                      keep_ctx
    = init_seed_classes (Some (["com.example.Keep"] ++ [])) keep_ctx
  ∧ init_seed_classes (Some ([] ++ "com.example.Keep$Inner" :: [])) keep_ctx
    = init_seed_classes (Some ([] ++ [])) keep_ctx.
Proof.
  destruct (init_seed_classes_skips keep_ctx) as [Hnone Hskip].
  split_and!; [exact Hnone | apply Hskip | apply Hskip].
  - left. simpl. repeat (first [by left | right]).
  - right. simpl. repeat (first [by left | right]).
Defined.

Lemma reflected_prefix_compared_verbatim_witness :
  ("Lcom/x/A;" ∉ seed_reflected_packages ["Lcom/x/A;"] ["com.x"])
  ∧ ("Lcom/x/A;" ∈ seed_reflected_packages ["Lcom/x/A;"] ["Lcom/x"]).
Proof.
  split.
  - apply (reflected_prefix_compared_verbatim ["Lcom/x/A;"] ["com.x"] "Lcom/x/A;").
    + exists "com/x/A;". split; [reflexivity|]. simpl. intuition discriminate.
    + intros pkg ->%list_elem_of_singleton. left. simpl. tauto.
  - apply (reflected_prefix_compared_verbatim ["Lcom/x/A;"] ["Lcom/x"] "Lcom/x/A;").
    split; [by left|]. exists "Lcom/x". split; [by left|]. by exists "/A;".
Defined.



(* ===================================================================== *)
(** ** Marking operations as setters: order and repetition *)
(* ===================================================================== *)

Section setters.
Implicit Types (f g : ReferencedState → ReferencedState).

Lemma rstate_or_fresh r : rstate_or fresh_rstate r = r.
Proof. by destruct r. Qed.

Lemma rstate_or_comm k1 k2 r :
rstate_or k1 (rstate_or k2 r) = rstate_or k2 (rstate_or k1 r).
Proof.
destruct k1 as [[] [] [] []], k2 as [[] [] [] []], r as [[] [] [] []]; done.
Qed.

Lemma rstate_or_idemp k r : rstate_or k (rstate_or k r) = rstate_or k r.
Proof. destruct k as [[] [] [] []], r as [[] [] [] []]; done. Qed.

Lemma setter_id : setter id.
Proof. exists fresh_rstate. intros r. by rewrite rstate_or_fresh. Qed.

Lemma setter_ref_by_type : setter ref_by_type.
Proof. exists (RState true false false false). by intros []. Qed.

Lemma setter_ref_by_string b : setter (ref_by_string b).
Proof.
destruct b; [exists (RState false true false false)
            | exists (RState false false true false)]; by intros [].
Qed.

Lemma setter_ref_by_seed : setter ref_by_seed.
Proof.
exists (RState false false false true). by intros [].
Qed.

Lemma setter_at f (i j : nat) :
setter f → setter (if decide (j = i) then f else id).
Proof. intros Hf. case_decide; [done | apply setter_id]. Qed.

Lemma setter_comm f g r : setter f → setter g → f (g r) = g (f r).
Proof. intros [kf Hf] [kg Hg]. rewrite !Hf, !Hg. apply rstate_or_comm. Qed.

Lemma setter_idemp f r : setter f → f (f r) = f r.
Proof. intros [kf Hf]. rewrite !Hf. apply rstate_or_idemp. Qed.
End setters.

Create HintDb setters.
#[global] Hint Resolve setter_id setter_ref_by_type setter_ref_by_string
  setter_ref_by_seed setter_at : setters.

Lemma on_rstate_id_method (m : DexMethod.t) : on_rstate id m = m.
Proof. by destruct m. Qed.

Lemma on_rstate_id_field (f : DexField.t) : on_rstate id f = f.
Proof. by destruct f. Qed.

Section masks.
Context {T : Type} `{HasRState T}.
Hypothesis get_with : ∀ r (m : T), rstate_of (with_rstate r m) = r.
Hypothesis with_with : ∀ r r' (m : T),
with_rstate r (with_rstate r' m) = with_rstate r m.
Hypothesis with_get : ∀ m : T, with_rstate (rstate_of m) m = m.

Lemma fmap_as_mask op (l : list T) :
on_rstate op <$> l = imap (λ _, on_rstate op) l.
Proof.
apply list_eq. intros i. by rewrite list_lookup_fmap, list_lookup_imap.
Qed.

Lemma alter_as_mask op i (l : list T) :
alter (on_rstate op) i l
= imap (λ j, on_rstate (if decide (j = i) then op else id)) l.
Proof.
apply list_eq. intros j. rewrite list_lookup_imap.
destruct (decide (j = i)) as [->|Hne].
- rewrite list_lookup_alter_eq. done.
- rewrite list_lookup_alter_ne by done. destruct (l !! j) as [m|]; [|done].
  simpl. unfold on_rstate. simpl. by rewrite with_get.
Qed.

Lemma id_as_mask (l : list T) : l = imap (λ _, on_rstate id) l.
Proof.
apply list_eq. intros j. rewrite list_lookup_imap.
destruct (l !! j) as [m|]; [|done]. simpl. unfold on_rstate. simpl.
by rewrite with_get.
Qed.

Lemma mask_compose (F G : nat → ReferencedState → ReferencedState) (l : list T) :
imap (λ j, on_rstate (F j)) (imap (λ j, on_rstate (G j)) l)
= imap (λ j, on_rstate (F j ∘ G j)) l.
Proof.
apply list_eq. intros j. rewrite !list_lookup_imap.
destruct (l !! j) as [m|]; [|done]. simpl. f_equal. unfold on_rstate.
by rewrite get_with, with_with.
Qed.

Lemma mask_ext (F G : nat → ReferencedState → ReferencedState) (l : list T) :
(∀ j r, F j r = G j r) →
imap (λ j, on_rstate (F j)) l = imap (λ j, on_rstate (G j)) l.
Proof.
intros HFG. apply imap_ext. intros j m _. unfold on_rstate. by rewrite HFG.
Qed.
End masks.

Lemma method_with_with r r' (m : DexMethod.t) :
  with_rstate r (with_rstate r' m) = with_rstate r m.
Proof. done. Qed.

Lemma method_with_get (m : DexMethod.t) : with_rstate (rstate_of m) m = m.
Proof. by destruct m. Qed.

Lemma field_with_with r r' (f : DexField.t) :
  with_rstate r (with_rstate r' f) = with_rstate r f.
Proof. done. Qed.

Lemma field_with_get (f : DexField.t) : with_rstate (rstate_of f) f = f.
Proof. by destruct f. Qed.

Lemma mask_class_compose mc md mv ms mi mc' md' mv' ms' mi' cls :
  mask_class mc md mv ms mi (mask_class mc' md' mv' ms' mi' cls)
  = mask_class (mc ∘ mc') (λ j, md j ∘ md' j) (λ j, mv j ∘ mv' j)
               (λ j, ms j ∘ ms' j) (λ j, mi j ∘ mi' j) cls.
Proof.
  unfold mask_class. simpl. f_equal;
    apply mask_compose; auto using method_get_with, field_get_with,
      method_with_with, field_with_with.
Qed.

Lemma mask_class_ext mc md mv ms mi mc' md' mv' ms' mi' cls :
  (∀ r, mc r = mc' r) → (∀ j r, md j r = md' j r) → (∀ j r, mv j r = mv' j r) →
  (∀ j r, ms j r = ms' j r) → (∀ j r, mi j r = mi' j r) →
  mask_class mc md mv ms mi cls = mask_class mc' md' mv' ms' mi' cls.
Proof.
  intros Hc Hd Hv Hs Hi. unfold mask_class. f_equal; auto using mask_ext.
Qed.

(** Two masks made of setters commute, and a mask made of setters is
    idempotent. *)
Lemma mask_class_comm mc md mv ms mi mc' md' mv' ms' mi' cls :
  setter mc → (∀ j, setter (md j)) → (∀ j, setter (mv j)) →
  (∀ j, setter (ms j)) → (∀ j, setter (mi j)) →
  setter mc' → (∀ j, setter (md' j)) → (∀ j, setter (mv' j)) →
  (∀ j, setter (ms' j)) → (∀ j, setter (mi' j)) →
  mask_class mc md mv ms mi (mask_class mc' md' mv' ms' mi' cls)
  = mask_class mc' md' mv' ms' mi' (mask_class mc md mv ms mi cls).
Proof.
  intros. rewrite !mask_class_compose.
  apply mask_class_ext; intros; simpl; by apply setter_comm.
Qed.

Lemma mask_class_idemp mc md mv ms mi cls :
  setter mc → (∀ j, setter (md j)) → (∀ j, setter (mv j)) →
  (∀ j, setter (ms j)) → (∀ j, setter (mi j)) →
  mask_class mc md mv ms mi (mask_class mc md mv ms mi cls)
  = mask_class mc md mv ms mi cls.
Proof.
  intros. rewrite !mask_class_compose.
  apply mask_class_ext; intros; simpl; by apply setter_idemp.
Qed.

Lemma cascade_as_mask op cls :
  cascade op cls = mask_class op (λ _, op) (λ _, op) (λ _, op) (λ _, op) cls.
Proof.
  unfold cascade, mask_class. f_equal; apply fmap_as_mask.
Qed.

Lemma mask_class_id cls :
  mask_class id (λ _, id) (λ _, id) (λ _, id) (λ _, id) cls = cls.
Proof.
  destruct cls as [sup dm vm sf fi r]. unfold mask_class.
  cbn [DexClass.get_super_class DexClass.get_dmethods DexClass.get_vmethods
       DexClass.get_sfields DexClass.get_ifields DexClass.rstate].
  by rewrite <- !(id_as_mask method_with_get), <- !(id_as_mask field_with_get).
Qed.

Lemma class_only_as_mask op (cls : DexClass.t) :
  on_rstate op cls = mask_class op (λ _, id) (λ _, id) (λ _, id) (λ _, id) cls.
Proof.
  destruct cls as [sup dm vm sf fi r]. unfold mask_class.
  cbn [DexClass.get_super_class DexClass.get_dmethods DexClass.get_vmethods
       DexClass.get_sfields DexClass.get_ifields DexClass.rstate].
  by rewrite <- !(id_as_mask method_with_get), <- !(id_as_mask field_with_get).
Qed.

Lemma member_only_as_mask op i (cls : DexClass.t) :
  DexClass.mk (DexClass.get_super_class cls)
              (alter (on_rstate op) i (DexClass.get_dmethods cls))
              (DexClass.get_vmethods cls) (DexClass.get_sfields cls)
              (DexClass.get_ifields cls) (DexClass.rstate cls)
  = mask_class id (λ j, if decide (j = i) then op else id) (λ _, id) (λ _, id)
               (λ _, id) cls
  ∧ DexClass.mk (DexClass.get_super_class cls) (DexClass.get_dmethods cls)
              (alter (on_rstate op) i (DexClass.get_vmethods cls))
              (DexClass.get_sfields cls)
              (DexClass.get_ifields cls) (DexClass.rstate cls)
  = mask_class id (λ _, id) (λ j, if decide (j = i) then op else id) (λ _, id)
               (λ _, id) cls
  ∧ DexClass.mk (DexClass.get_super_class cls) (DexClass.get_dmethods cls)
              (DexClass.get_vmethods cls)
              (alter (on_rstate op) i (DexClass.get_sfields cls))
              (DexClass.get_ifields cls) (DexClass.rstate cls)
  = mask_class id (λ _, id) (λ _, id) (λ j, if decide (j = i) then op else id)
               (λ _, id) cls
  ∧ DexClass.mk (DexClass.get_super_class cls) (DexClass.get_dmethods cls)
              (DexClass.get_vmethods cls) (DexClass.get_sfields cls)
              (alter (on_rstate op) i (DexClass.get_ifields cls))
              (DexClass.rstate cls)
  = mask_class id (λ _, id) (λ _, id) (λ _, id)
               (λ j, if decide (j = i) then op else id) cls.
Proof.
  destruct cls as [sup dm vm sf fi r]. unfold mask_class.
  cbn [DexClass.get_super_class DexClass.get_dmethods DexClass.get_vmethods
       DexClass.get_sfields DexClass.get_ifields DexClass.rstate].
  rewrite <- !(id_as_mask method_with_get), <- !(id_as_mask field_with_get).
  rewrite <- !(alter_as_mask method_with_get), <- !(alter_as_mask field_with_get).
  done.
Qed.

Lemma alter_swap (F G : DexClass.t → DexClass.t) c1 c2 (h : ClassTable) :
  (c1 = c2 → ∀ cls, F (G cls) = G (F cls)) →
  alter F c1 (alter G c2 h) = alter G c2 (alter F c1 h).
Proof.
  intros HFG. apply map_eq. intros c.
  destruct (decide (c1 = c)) as [->|Hc1], (decide (c2 = c)) as [->|Hc2].
  - rewrite !lookup_alter_eq. destruct (h !! c) as [cls|]; simpl; [|done].
    f_equal. auto.
  - rewrite lookup_alter_eq, (lookup_alter_ne G _ c2 c) by done.
    by rewrite (lookup_alter_ne G _ c2 c), lookup_alter_eq by done.
  - rewrite (lookup_alter_ne F _ c1 c), lookup_alter_eq by done.
    by rewrite lookup_alter_eq, (lookup_alter_ne F _ c1 c) by done.
  - by rewrite !lookup_alter_ne by done.
Qed.

Lemma alter_twice (F : DexClass.t → DexClass.t) c (h : ClassTable) :
  (∀ cls, F (F cls) = F cls) → alter F c (alter F c h) = alter F c h.
Proof.
  intros HF. apply map_eq. intros c'. destruct (decide (c = c')) as [->|Hne].
  - rewrite !lookup_alter_eq. destruct (h !! c'); simpl; f_equal; auto.
  - by rewrite !lookup_alter_ne by done.
Qed.

(** Every marking operation rewrites one class with a mask of setters. *)
Lemma update_entity_as_mask op e :
  setter op →
  ∃ c mc md mv ms mi,
    setter mc ∧ (∀ j, setter (md j)) ∧ (∀ j, setter (mv j))
    ∧ (∀ j, setter (ms j)) ∧ (∀ j, setter (mi j))
    ∧ ∀ h, update_entity op e h = alter (mask_class mc md mv ms mi) c h.
Proof.
  intros Hop. destruct e as [c|c i|c i|c i|c i]; simpl.
  - exists c, op, (λ _, id), (λ _, id), (λ _, id), (λ _, id).
    split_and!; auto with setters. intros h. apply alter_ext. intros cls _.
    apply class_only_as_mask.
  - exists c, id, (λ j, if decide (j = i) then op else id),
      (λ _, id), (λ _, id), (λ _, id).
    split_and!; auto with setters. intros h. apply alter_ext. intros cls _.
    apply member_only_as_mask.
  - exists c, id, (λ _, id), (λ j, if decide (j = i) then op else id),
      (λ _, id), (λ _, id).
    split_and!; auto with setters. intros h. apply alter_ext. intros cls _.
    apply member_only_as_mask.
  - exists c, id, (λ _, id), (λ _, id),
      (λ j, if decide (j = i) then op else id), (λ _, id).
    split_and!; auto with setters. intros h. apply alter_ext. intros cls _.
    apply member_only_as_mask.
  - exists c, id, (λ _, id), (λ _, id), (λ _, id),
      (λ j, if decide (j = i) then op else id).
    split_and!; auto with setters. intros h. apply alter_ext. intros cls _.
    apply member_only_as_mask.
Qed.

Lemma cascade_alter_as_mask op c :
  setter op →
  ∃ c' mc md mv ms mi,
    setter mc ∧ (∀ j, setter (md j)) ∧ (∀ j, setter (mv j))
    ∧ (∀ j, setter (ms j)) ∧ (∀ j, setter (mi j))
    ∧ ∀ h : ClassTable,
        alter (cascade op) c h = alter (mask_class mc md mv ms mi) c' h.
Proof.
  intros Hop. exists c, op, (λ _, op), (λ _, op), (λ _, op), (λ _, op).
  split_and!; auto. intros h. apply alter_ext. intros cls _.
  apply cascade_as_mask.
Qed.

Lemma run_mark_as_mask op :
  ∃ c mc md mv ms mi,
    setter mc ∧ (∀ j, setter (md j)) ∧ (∀ j, setter (mv j))
    ∧ (∀ j, setter (ms j)) ∧ (∀ j, setter (mi j))
    ∧ ∀ h, run_mark h op = alter (mask_class mc md mv ms mi) c h.
Proof.
  destruct op as [[c|]|e|[c|] b|e b|[c|]]; simpl;
    try (exists "", id, (λ _, id), (λ _, id), (λ _, id), (λ _, id);
         split_and!; auto with setters; intros h; symmetry;
         apply alter_id; intros; apply mask_class_id).
  - apply cascade_alter_as_mask. auto with setters.
  - apply update_entity_as_mask. auto with setters.
  - apply cascade_alter_as_mask. auto with setters.
  - apply update_entity_as_mask. auto with setters.
  - apply (update_entity_as_mask ref_by_seed (EClass c)). auto with setters.
Qed.

Lemma run_mark_comm h op1 op2 :
  run_mark (run_mark h op1) op2 = run_mark (run_mark h op2) op1.
Proof.
  destruct (run_mark_as_mask op1)
    as (c1 & mc1 & md1 & mv1 & ms1 & mi1 & ? & ? & ? & ? & ? & Hop1).
  destruct (run_mark_as_mask op2)
    as (c2 & mc2 & md2 & mv2 & ms2 & mi2 & ? & ? & ? & ? & ? & Hop2).
  rewrite !Hop1, !Hop2. apply alter_swap. intros _ cls. by apply mask_class_comm.
Qed.

Lemma run_mark_idemp h op : run_mark (run_mark h op) op = run_mark h op.
Proof.
  destruct (run_mark_as_mask op)
    as (c & mc & md & mv & ms & mi & ? & ? & ? & ? & ? & Hop).
  rewrite !Hop. apply alter_twice. intros cls. by apply mask_class_idemp.
Qed.

Lemma run_marks_absorb (ops : list MarkOp) (op : MarkOp) h :
  op ∈ ops → run_marks ops (run_mark h op) = run_marks ops h.
Proof.
  revert h. induction ops as [|op' ops IH]; intros h Hin.
  - by apply elem_of_nil in Hin.
  - unfold run_marks in *. simpl. destruct (decide (op = op')) as [->|Hne].
    + by rewrite run_mark_idemp.
    + rewrite run_mark_comm. apply IH.
      apply elem_of_cons in Hin as [?|?]; [done | done].
Qed.

Lemma run_marks_perm (ops ops' : list MarkOp) h :
  ops ≡ₚ ops' → run_marks ops h = run_marks ops' h.
Proof.
  intros Hperm. revert h. unfold run_marks.
  induction Hperm as [|op ops ops' _ IH|op1 op2 ops|ops1 ops2 ops3 _ IH1 _ IH2];
    intros h; simpl.
  - done.
  - apply IH.
  - by rewrite run_mark_comm.
  - by rewrite IH1, IH2.
Qed.

Lemma run_marks_remove_dups (ops : list MarkOp) h :
  run_marks (remove_dups ops) h = run_marks ops h.
Proof.
  revert h. induction ops as [|op ops IH]; intros h; [done|].
  simpl. case_decide as Hin.
  - rewrite IH. symmetry. by apply (run_marks_absorb ops op h).
  - unfold run_marks in *. simpl. apply IH.
Qed.

(** X1.  The table a sequence of marking operations leaves depends on the set
    of operations only. *)
Theorem run_marks_set (ops ops' : list MarkOp) (h : ClassTable) :
  (∀ op, op ∈ ops ↔ op ∈ ops') → run_marks ops h = run_marks ops' h.
Proof.
  intros Hset. rewrite <- (run_marks_remove_dups ops), <- (run_marks_remove_dups ops').
  apply run_marks_perm. apply NoDup_Permutation; try apply NoDup_remove_dups.
  intros op. rewrite !elem_of_remove_dups. apply Hset.
Qed.

(* ===================================================================== *)
(** ** Names, types and classes *)
(* ===================================================================== *)

Lemma c_str_replace from to s :
  from ≠ NUL → to ≠ NUL → c_str (replace from to s) = replace from to (c_str s).
Proof.
  intros Hfrom Hto. induction s as [|a s IH]; simpl; [done|].
  destruct (decide (a = from)) as [->|Hne].
  - rewrite !decide_False by done. simpl. rewrite decide_True by done.
    by rewrite IH.
  - destruct (decide (a = NUL)) as [->|Hnul]; [done|].
    simpl. rewrite decide_False by done. by rewrite IH.
Qed.

Lemma replace_idemp from to s :
  from ≠ to → replace from to (replace from to s) = replace from to s.
Proof.
  intros Hne. induction s as [|a s IH]; simpl; [done|]. rewrite IH. f_equal.
  destruct (decide (a = from)) as [->|Ha]; [by rewrite decide_False|].
  by rewrite decide_False.
Qed.

Lemma descriptor_of_dotname_replace name :
  descriptor_of_dotname (replace "." "/" name) = descriptor_of_dotname name.
Proof.
  unfold descriptor_of_dotname. by rewrite c_str_replace, replace_idemp.
Qed.

Lemma descriptor_of_dotname_length name :
  String.length (descriptor_of_dotname name) = strlen name + 2.
Proof.
  unfold descriptor_of_dotname, strlen. simpl.
  rewrite app_length, replace_length. simpl. lia.
Qed.

Lemma descriptor_of_dotname_no_dot name :
  ¬ has_char "." (descriptor_of_dotname name).
Proof.
  unfold descriptor_of_dotname. simpl. rewrite has_char_app. simpl.
  intros [?|[Hd|[?|[]]]]; try done. by eapply replace_no_from, Hd.
Qed.

(** X2.  [get_dextype_from_dotname] answers with a type exactly when the name
    is not null and the descriptor [L<name>;], with every dot of the name
    turned into a slash, is a known type, and then that descriptor is the
    answer.  Only the C string of the name counts, a name written with
    slashes resolves like the same name written with dots, and the
    descriptor holds no dot and no NUL and is two characters longer than the
    name. *)
Theorem get_dextype_from_dotname_descriptor (types : gset string) :
  (∀ dotname t,
     get_dextype_from_dotname types dotname = Some t ↔
     ∃ name, dotname = Some name ∧ t = descriptor_of_dotname name ∧ t ∈ types)
  ∧ (∀ name, get_dextype_from_dotname types (Some (c_str name))
             = get_dextype_from_dotname types (Some name))
  ∧ (∀ name, get_dextype_from_dotname types (Some (replace "." "/" name))
             = get_dextype_from_dotname types (Some name))
  ∧ (∀ name, ¬ has_char "." (descriptor_of_dotname name)
             ∧ ¬ has_char NUL (descriptor_of_dotname name)
             ∧ String.length (descriptor_of_dotname name) = strlen name + 2).
Proof.
  split_and!.
  - intros [name|] t.
    + rewrite get_dextype_from_dotname_eq. unfold get_type. split.
      * case_decide; [|done]. intros [= <-]. eauto.
      * intros (? & [= <-] & -> & Ht). by rewrite decide_True.
    + split; [done | by intros (? & ? & _)].
  - intros name. rewrite !get_dextype_from_dotname_eq.
    unfold descriptor_of_dotname. by rewrite c_str_idemp.
  - intros name. rewrite !get_dextype_from_dotname_eq.
    by rewrite descriptor_of_dotname_replace.
  - intros name. split_and!.
    + apply descriptor_of_dotname_no_dot.
    + apply descriptor_of_dotname_no_NUL.
    + apply descriptor_of_dotname_length.
Qed.

(** X3.  [mark_reachable_by_classname] applies [ref_by_string(from_code)] to
    the class and to each of its methods and fields, and leaves every entity
    of another class, every other class record and the set of classes as
    they were; on a null class it does nothing. *)
Theorem mark_reachable_by_classname_cascades (h : ClassTable) (c : string)
    (from_code : bool) :
  (∀ e, entity_class e = c →
        entity_rstate (mark_reachable_by_classname (Some c) from_code h) e
        = ref_by_string from_code <$> entity_rstate h e)
  ∧ (∀ e, entity_class e ≠ c →
          entity_rstate (mark_reachable_by_classname (Some c) from_code h) e
          = entity_rstate h e)
  ∧ (∀ c', c' ≠ c →
           mark_reachable_by_classname (Some c) from_code h !! c' = h !! c')
  ∧ dom (mark_reachable_by_classname (Some c) from_code h) = dom h
  ∧ mark_reachable_by_classname None from_code h = h.
Proof.
  simpl. split_and!.
  - intros e He. by apply entity_rstate_cascade.
  - intros e He. by apply entity_rstate_alter_ne.
  - intros c' Hne. by rewrite lookup_alter_ne.
  - apply dom_alter_L.
  - done.
Qed.

Lemma mark_reachable_by_classname_type_alter t from_code (h : ClassTable) :
  mark_reachable_by_classname_type (Some t) from_code h
  = alter (cascade (ref_by_string from_code)) t h.
Proof.
  unfold mark_reachable_by_classname_type, type_class_internal.
  case_decide as Ht; [done|]. simpl. symmetry. apply alter_absent.
  destruct (h !! t); [destruct Ht; eauto | done].
Qed.

Lemma mark_reachable_by_classname_str_alter g classname from_code :
  mark_reachable_by_classname_str g classname from_code
  = if decide (c_str classname ∈ g_types g)
    then alter (cascade (ref_by_string from_code)) (c_str classname) (g_classes g)
    else g_classes g.
Proof.
  unfold mark_reachable_by_classname_str, get_type. case_decide; [|done].
  apply (mark_reachable_by_classname_type_alter _ _ (g_classes g)).
Qed.

(** X4.  Marking by name through a type or through a name string resolves the
    name first.  With no such type, or with a type that has no class in the
    program, the table is returned as it is; otherwise the result is that of
    marking the class, and of a name string only the C string counts. *)
Theorem mark_reachable_by_classname_resolves (g : RedexContext)
    (classname : string) (from_code : bool) :
  (c_str classname ∉ g_types g →
   mark_reachable_by_classname_str g classname from_code = g_classes g)
  ∧ (g_classes g !! c_str classname = None →
     mark_reachable_by_classname_str g classname from_code = g_classes g
     ∧ mark_reachable_by_classname_type (Some (c_str classname)) from_code
                                        (g_classes g) = g_classes g)
  ∧ (c_str classname ∈ g_types g →
     is_Some (g_classes g !! c_str classname) →
     mark_reachable_by_classname_str g classname from_code
     = mark_reachable_by_classname (Some (c_str classname)) from_code (g_classes g)
     ∧ mark_reachable_by_classname_type (Some (c_str classname)) from_code
                                        (g_classes g)
       = mark_reachable_by_classname (Some (c_str classname)) from_code
                                     (g_classes g))
  ∧ mark_reachable_by_classname_type None from_code (g_classes g) = g_classes g.
Proof.
  rewrite mark_reachable_by_classname_str_alter,
    mark_reachable_by_classname_type_alter.
  split_and!.
  - intros Hty. by rewrite decide_False.
  - intros Hnone. rewrite alter_absent by done. split; [by case_decide | done].
  - intros Hty _. by rewrite decide_True.
  - done.
Qed.

(* ===================================================================== *)
(** ** keep_annotated_classes and recompute_classes_reachable_from_code *)
(* ===================================================================== *)

Lemma entity_rstate_mask mc md mv ms mi c (h : ClassTable) e :
  entity_rstate (alter (mask_class mc md mv ms mi) c h) e
  = if decide (entity_class e = c)
    then entity_mask mc md mv ms mi e <$> entity_rstate h e
    else entity_rstate h e.
Proof.
  case_decide as He; [|by apply entity_rstate_alter_ne]. subst c.
  destruct e as [c|c i|c i|c i|c i]; simpl; rewrite lookup_alter_eq;
    destruct (h !! c) as [cls|]; simpl; try done;
    rewrite list_lookup_imap;
    match goal with |- context [?l !! i] => by destruct (l !! i) end.
Qed.

Lemma anno_set_contains_spec annos keep e :
  anno_set_contains (annos e) keep = true ↔ annotated annos keep e.
Proof.
  unfold anno_set_contains, annotated. destruct (annos e) as [l|].
  - rewrite existsb_exists. split.
    + intros (a & Ha%list_elem_of_In & Hk%bool_decide_eq_true). eauto.
    + intros (l' & a & [= <-] & Ha & Hk). exists a.
      split; [by apply list_elem_of_In | by apply bool_decide_eq_true].
  - split; [done | by intros (? & ? & ? & _)].
Qed.

Lemma keep_annotated_cls_as_mask annos keep c cls :
  keep_annotated_cls annos keep c cls
  = mask_class
      (if anno_set_contains (annos (EClass c)) keep then ref_by_type else id)
      (λ j, if anno_set_contains (annos (EDMethod c j)) keep then ref_by_type else id)
      (λ j, if anno_set_contains (annos (EVMethod c j)) keep then ref_by_type else id)
      (λ j, if anno_set_contains (annos (ESField c j)) keep then ref_by_type else id)
      (λ j, if anno_set_contains (annos (EIField c j)) keep then ref_by_type else id)
      cls.
Proof.
  unfold keep_annotated_cls, mask_class. f_equal.
  - apply imap_ext. intros j m _. simpl.
    destruct (anno_set_contains _ keep); [done | by destruct m].
  - apply imap_ext. intros j m _. simpl.
    destruct (anno_set_contains _ keep); [done | by destruct m].
  - apply imap_ext. intros j m _. simpl.
    destruct (anno_set_contains _ keep); [done | by destruct m].
  - apply imap_ext. intros j m _. simpl.
    destruct (anno_set_contains _ keep); [done | by destruct m].
  - by destruct (anno_set_contains _ keep).
Qed.

Lemma setter_if (b : bool) f : setter f → setter (if b then f else id).
Proof. destruct b; auto with setters. Qed.

#[global] Hint Resolve setter_if : setters.

Lemma keep_annotated_cls_idemp annos keep c cls :
  keep_annotated_cls annos keep c (keep_annotated_cls annos keep c cls)
  = keep_annotated_cls annos keep c cls.
Proof.
  rewrite !keep_annotated_cls_as_mask.
  apply mask_class_idemp; auto with setters.
Qed.

Lemma foldl_alter_entity_rstate (f : string → DexClass.t → DexClass.t)
    (scope : Scope) (h : ClassTable) (e : Entity) :
  (∀ c cls, f c (f c cls) = f c cls) →
  entity_rstate (foldl (λ h cls, alter (f cls) cls h) h scope) e
  = if decide (entity_class e ∈ scope)
    then entity_rstate (alter (f (entity_class e)) (entity_class e) h) e
    else entity_rstate h e.
Proof.
  intros Hf.
  pose proof (foldl_alter_lookup f scope h (entity_class e) (Hf _)) as Hlook.
  destruct (decide (entity_class e ∈ scope)).
  - destruct e; simpl in *; by rewrite Hlook, lookup_alter_eq.
  - destruct e; simpl in *; by rewrite Hlook.
Qed.

(** X5.  [keep_annotated_classes] applies [ref_by_type] to exactly the classes,
    methods and fields that belong to a class in scope and carry an
    annotation of a kept type; an annotated class does not mark its members
    and an annotated member does not mark its class.  An entity without
    annotation set, or with an empty one, is never marked. *)
Theorem keep_annotated_classes_exact (scope : Scope) (keep : gset string)
    (annos : AnnoTable) (h : ClassTable) (e : Entity) :
  (entity_rstate (keep_annotated_classes scope keep annos h) e
   = if decide (entity_class e ∈ scope)
     then (if anno_set_contains (annos e) keep then ref_by_type else id)
            <$> entity_rstate h e
     else entity_rstate h e)
  ∧ (anno_set_contains (annos e) keep = true ↔ annotated annos keep e)
  ∧ (annos e = None ∨ annos e = Some [] →
     entity_rstate (keep_annotated_classes scope keep annos h) e
     = entity_rstate h e).
Proof.
  assert (entity_rstate (keep_annotated_classes scope keep annos h) e
   = if decide (entity_class e ∈ scope)
     then (if anno_set_contains (annos e) keep then ref_by_type else id)
            <$> entity_rstate h e
     else entity_rstate h e) as Hmain.
  { unfold keep_annotated_classes.
    rewrite (foldl_alter_entity_rstate (keep_annotated_cls annos keep))
      by (intros; apply keep_annotated_cls_idemp).
    case_decide; [|done].
    rewrite (alter_ext _ _ _ _
               (λ cls _, keep_annotated_cls_as_mask annos keep _ cls)).
    rewrite entity_rstate_mask, decide_True by done. by destruct e. }
  split_and!; [done | apply anno_set_contains_spec |].
  intros Hnone. rewrite Hmain. case_decide; [|done].
  assert (anno_set_contains (annos e) keep = false) as ->
    by (by destruct Hnone as [-> | ->]).
  by destruct (entity_rstate h e).
Qed.

Lemma class_methods_class c cls e : e ∈ class_methods c cls → entity_class e = c.
Proof.
  unfold class_methods. rewrite elem_of_app, !list_elem_of_fmap.
  by intros [(i & -> & _)|(i & -> & _)].
Qed.

Lemma class_methods_cascade op c cls :
  class_methods c (cascade op cls) = class_methods c cls.
Proof. unfold class_methods, cascade. simpl. by rewrite !length_fmap. Qed.

Lemma existsb_class_methods native c cls :
  existsb native (class_methods c cls) = true ↔ has_native native c cls.
Proof.
  unfold class_methods, has_native. rewrite existsb_app, orb_true_iff,
    !existsb_exists.
  split; (intros [H|H]; [left|right]).
  - destruct H as (e & (i & -> & Hi%elem_of_seq)%list_elem_of_In%list_elem_of_fmap & ?).
    exists i. split; [lia | done].
  - destruct H as (e & (i & -> & Hi%elem_of_seq)%list_elem_of_In%list_elem_of_fmap & ?).
    exists i. split; [lia | done].
  - destruct H as (i & Hi & Hn). exists (EDMethod c i). split; [|done].
    apply list_elem_of_In, list_elem_of_fmap. exists i. split; [done|].
    apply elem_of_seq. lia.
  - destruct H as (i & Hi & Hn). exists (EVMethod c i). split; [|done].
    apply list_elem_of_In, list_elem_of_fmap. exists i. split; [done|].
    apply elem_of_seq. lia.
Qed.

Lemma ref_by_string_twice b r :
  ref_by_string b (ref_by_string b r) = ref_by_string b r.
Proof. by destruct b. Qed.

(** The sweep over the methods of one class. *)
Lemma recompute_methods (native : Entity → bool) (c : string) (l : list Entity)
    (h : ClassTable) :
  (∀ e : Entity, e ∈ l → entity_class e = c) →
  foldl (λ h meth,
           if native meth
           then mark_reachable_by_classname_type (Some (entity_class meth)) true h
           else h) h l
  = if existsb native l then alter (cascade (ref_by_string true)) c h else h.
Proof.
  revert h. induction l as [|e l IH]; intros h Hl; [done|]. simpl.
  rewrite IH by (intros; apply Hl; by right).
  destruct (native e) eqn:He; simpl; [|done].
  rewrite mark_reachable_by_classname_type_alter, (Hl e) by by left.
  destruct (existsb native l); [|done].
  apply alter_twice. intros cls. apply cascade_idemp, ref_by_string_twice.
Qed.

Lemma recompute_as_alter native (scope : Scope) (h : ClassTable) :
  recompute_classes_reachable_from_code native scope h
  = foldl (λ h c,
             alter (λ cls, if existsb native (class_methods c cls)
                           then cascade (ref_by_string true) cls else cls) c h)
          h scope.
Proof.
  unfold recompute_classes_reachable_from_code. apply foldl_step_ext.
  intros h' c. destruct (h' !! c) as [cls|] eqn:Hc.
  - rewrite (recompute_methods native c) by apply class_methods_class.
    destruct (existsb native (class_methods c cls)) eqn:Hn.
    + apply alter_ext. intros cls' Hcls'. simplify_eq. by rewrite Hn.
    + symmetry. apply alter_id. intros cls' Hcls'. simplify_eq. by rewrite Hn.
  - symmetry. by apply alter_absent.
Qed.

Lemma recompute_cls_idemp native c cls :
  (λ cls, if existsb native (class_methods c cls)
          then cascade (ref_by_string true) cls else cls)
    ((λ cls, if existsb native (class_methods c cls)
             then cascade (ref_by_string true) cls else cls) cls)
  = (λ cls, if existsb native (class_methods c cls)
            then cascade (ref_by_string true) cls else cls) cls.
Proof.
  simpl. destruct (existsb native (class_methods c cls)) eqn:Hn.
  - rewrite class_methods_cascade, Hn. apply cascade_idemp, ref_by_string_twice.
  - by rewrite Hn.
Qed.

Lemma recompute_lookup native (scope : Scope) (h : ClassTable) c :
  recompute_classes_reachable_from_code native scope h !! c
  = if decide (c ∈ scope)
    then (λ cls, if existsb native (class_methods c cls)
                 then cascade (ref_by_string true) cls else cls) <$> h !! c
    else h !! c.
Proof.
  rewrite recompute_as_alter.
  apply (foldl_alter_lookup
           (λ c cls, if existsb native (class_methods c cls)
                     then cascade (ref_by_string true) cls else cls)).
  intros cls. apply recompute_cls_idemp.
Qed.

(** X6.  [recompute_classes_reachable_from_code] marks by name, from code and
    with cascade, exactly the classes in scope that declare a native method,
    once however many native methods they declare, and leaves every other
    class as it is; running it again changes nothing. *)
Theorem recompute_marks_native_owners (native : Entity → bool) (scope : Scope)
    (h : ClassTable) :
  (∀ c cls, h !! c = Some cls → c ∈ scope → has_native native c cls →
     recompute_classes_reachable_from_code native scope h !! c
     = Some (cascade (ref_by_string true) cls))
  ∧ (∀ c cls, h !! c = Some cls → ¬ (c ∈ scope ∧ has_native native c cls) →
     recompute_classes_reachable_from_code native scope h !! c = Some cls)
  ∧ dom (recompute_classes_reachable_from_code native scope h) = dom h
  ∧ recompute_classes_reachable_from_code native scope
      (recompute_classes_reachable_from_code native scope h)
    = recompute_classes_reachable_from_code native scope h.
Proof.
  split_and!.
  - intros c cls Hc Hs Hn. rewrite recompute_lookup, Hc, decide_True by done.
    simpl. apply existsb_class_methods in Hn. by rewrite Hn.
  - intros c cls Hc Hno. rewrite recompute_lookup, Hc. case_decide; [|done].
    simpl. destruct (existsb native (class_methods c cls)) eqn:Hn; [|done].
    apply existsb_class_methods in Hn. tauto.
  - apply set_eq. intros c. rewrite !elem_of_dom, recompute_lookup.
    case_decide; [|done]. by rewrite fmap_is_Some.
  - apply map_eq. intros c. rewrite !recompute_lookup.
    case_decide; [|done]. destruct (h !! c) as [cls|]; [|done]. simpl.
    f_equal. apply (recompute_cls_idemp native c cls).
Qed.

(* ===================================================================== *)
(** ** The closure of the reflected set *)
(* ===================================================================== *)

Section closure.
Implicit Types (h : ClassTable) (set : gset string) (c : string).

Lemma same_hierarchy_refl h : same_hierarchy h h.
Proof. by intros c. Qed.

Lemma same_hierarchy_trans h1 h2 h3 :
same_hierarchy h1 h2 → same_hierarchy h2 h3 → same_hierarchy h1 h3.
Proof.
intros H12 H23 c. destruct (H12 c) as [E1 I1], (H23 c) as [E2 I2].
split; [congruence | tauto].
Qed.

Lemma same_hierarchy_alter (F : DexClass.t → DexClass.t) c h :
(∀ cls, DexClass.get_super_class (F cls) = DexClass.get_super_class cls) →
same_hierarchy h (alter F c h).
Proof.
intros HF c'. destruct (decide (c = c')) as [->|Hne].
- rewrite lookup_alter_eq. destruct (h !! c') as [cls|]; simpl.
  + split; [apply HF | by split; eauto].
  + split; [done | by split; intros []].
- by rewrite lookup_alter_ne.
Qed.

Lemma same_hierarchy_step h h' c :
same_hierarchy h h' →
type_class_internal h' (h' !! c ≫= DexClass.get_super_class)
= type_class_internal h (h !! c ≫= DexClass.get_super_class).
Proof.
intros Hsame. destruct (Hsame c) as [-> _].
destruct (h !! c ≫= DexClass.get_super_class) as [p|]; [|done]. simpl.
destruct (Hsame p) as [_ Hp].
destruct (decide (is_Some (h !! p))), (decide (is_Some (h' !! p))); tauto.
Qed.

Lemma same_hierarchy_in_reflected_pkg fuel h h' d set :
same_hierarchy h h' →
in_reflected_pkg fuel h' d set = in_reflected_pkg fuel h d set.
Proof.
intros Hsame. revert d. induction fuel as [|fuel IH]; intros d; [done|].
destruct d as [c|]; [|done]. simpl. case_decide; [done|].
by rewrite IH, (same_hierarchy_step h h').
Qed.

Lemma same_hierarchy_super_of h h' c p :
same_hierarchy h h' → super_of h' c p ↔ super_of h c p.
Proof. intros Hsame. unfold super_of. by rewrite (same_hierarchy_step h h'). Qed.

Lemma same_hierarchy_reaches h h' set c :
same_hierarchy h h' → reaches h' set c ↔ reaches h set c.
Proof.
intros Hsame.
assert (∀ a, rtc (super_of h') c a ↔ rtc (super_of h) c a) as Hrtc.
{ intros a. split; induction 1 as [|x y z Hxy _ IH]; try reflexivity;
    (eapply rtc_l; [|exact IH]); by apply (same_hierarchy_super_of h h'). }
unfold reaches. by setoid_rewrite Hrtc.
Qed.


(** On a well-founded chain a number of calls that does not depend on the
  set is enough. *)
Lemma in_reflected_pkg_enough h c :
Acc (λ p c, super_of h c p) c →
∃ fuel, ∀ set, is_Some (in_reflected_pkg fuel h (Some c) set).
Proof.
induction 1 as [c _ IH].
destruct (type_class_internal h (h !! c ≫= DexClass.get_super_class))
  as [p|] eqn:Hp.
- destruct (IH p Hp) as [fuel Hfuel]. exists (S fuel). intros set.
  destruct (decide (c ∈ set)).
  + rewrite in_reflected_pkg_hit by done. eauto.
  + rewrite in_reflected_pkg_up, Hp by done. apply Hfuel.
- exists 2. intros set. destruct (decide (c ∈ set)).
  + rewrite in_reflected_pkg_hit by done. eauto.
  + rewrite in_reflected_pkg_up, Hp by done. simpl. eauto.
Qed.

Lemma reaches_insert h set clazz c :
reaches h set clazz → reaches h ({[clazz]} ∪ set) c ↔ reaches h set c.
Proof.
intros (a & Hrtc & Ha). split.
- intros (a' & Hrtc' & [->%elem_of_singleton|Ha']%elem_of_union).
  + exists a. split; [by etrans | done].
  + by exists a'.
- intros (a' & Hrtc' & Ha'). exists a'. split; [done|].
  apply elem_of_union. by right.
Qed.

Lemma reaches_here h set c : c ∈ set → reaches h set c.
Proof. intros Hc. exists c. split; [reflexivity | done]. Qed.
End closure.

Lemma cascade_super op cls :
  DexClass.get_super_class (cascade op cls) = DexClass.get_super_class cls.
Proof. done. Qed.

Lemma close_reflected_packages_sound (fuel : nat) (scope : Scope)
    (set : gset string) (h : ClassTable) (set' : gset string) (h' : ClassTable) :
  close_reflected_packages fuel scope set h = Some (set', h') →
  (∀ x, x ∈ set' ↔ x ∈ set ∨ (x ∈ scope ∧ reaches h set x))
  ∧ (∀ c, c ∈ scope → reaches h set c →
          h' !! c = cascade (ref_by_string false) <$> h !! c)
  ∧ (∀ c, ¬ (c ∈ scope ∧ reaches h set c) → h' !! c = h !! c).
Proof.
  revert set h. induction scope as [|clazz rest IH]; intros set h; simpl.
  { intros [= <- <-]. split_and!.
    - intros x. split; [by left | intros [?|[[]%elem_of_nil _]]; done].
    - by intros c []%elem_of_nil.
    - done. }
  destruct (in_reflected_pkg fuel h (Some clazz) set) as [[]|] eqn:Hin; [| |done].
  - apply in_reflected_pkg_sound in Hin. destruct Hin as [Hin _].
    specialize (Hin eq_refl). intros Hclose.
    destruct (IH _ _ Hclose) as (Hset & Hmark & Hframe).
    pose proof (same_hierarchy_alter (cascade (ref_by_string false)) clazz h
                  (cascade_super _)) as Hsame.
    assert (∀ c, reaches (alter (cascade (ref_by_string false)) clazz h)
                         ({[clazz]} ∪ set) c ↔ reaches h set c) as Hreach.
    { intros c. rewrite (same_hierarchy_reaches h) by done.
      by apply reaches_insert. }
    split_and!.
    + intros x. rewrite Hset, Hreach, elem_of_union, elem_of_singleton,
        elem_of_cons. split.
      * intros [[->|?]|[? ?]]; auto.
      * intros [?|[[->|?] ?]]; auto.
    + intros c Hc Hr. destruct (decide (c ∈ rest)) as [Hrest|Hrest].
      * rewrite Hmark by (by try apply Hreach).
        destruct (decide (clazz = c)) as [->|Hne].
        -- rewrite lookup_alter_eq. destruct (h !! c); simpl; [|done].
           f_equal. apply cascade_idemp, ref_by_string_twice.
        -- by rewrite lookup_alter_ne.
      * apply elem_of_cons in Hc as [->|?]; [|done].
        rewrite Hframe by tauto. by rewrite lookup_alter_eq.
    + intros c Hno. rewrite Hframe.
      * apply lookup_alter_ne. intros ->. apply Hno. split; [by left | done].
      * intros [? ?%Hreach]. apply Hno. split; [by right | done].
  - pose proof (in_reflected_pkg_sound _ _ _ _ _ Hin) as [_ Hno].
    intros Hclose. destruct (IH _ _ Hclose) as (Hset & Hmark & Hframe).
    split_and!.
    + intros x. rewrite Hset, elem_of_cons. split.
      * intros [?|[? ?]]; auto.
      * intros [?|[[->|?] Hr]]; auto. by apply Hno in Hr.
    + intros c [->|?]%elem_of_cons Hr; [by apply Hno in Hr | auto].
    + intros c Hnot. apply Hframe. intros [? ?]. apply Hnot.
      split; [by right | done].
Qed.

Lemma close_reflected_packages_enough (scope : Scope) (h : ClassTable) :
  (∀ c, c ∈ scope → Acc (λ p c, super_of h c p) c) →
  ∃ fuel, ∀ set h0, same_hierarchy h h0 →
    is_Some (close_reflected_packages fuel scope set h0).
Proof.
  induction scope as [|clazz rest IH]; intros Hacc.
  { exists 0. intros set h0 _. simpl. eauto. }
  destruct IH as [fuel1 Hrest]; [intros; apply Hacc; by right|].
  destruct (in_reflected_pkg_enough h clazz) as [fuel2 Hclazz];
    [apply Hacc; by left|].
  assert (∀ fuel set0 h0, fuel1 ≤ fuel → same_hierarchy h h0 →
            is_Some (close_reflected_packages fuel rest set0 h0)) as Hrest'.
  { clear -Hrest. intros fuel set0 h0 Hle Hsame.
    destruct (Hrest set0 h0 Hsame) as [[s t] Hst]. revert Hst. generalize s t.
    clear s t Hrest. revert set0 h0 Hsame.
    induction rest as [|x rest IH]; intros set0 h0 Hsame s t; simpl; [eauto|].
    destruct (in_reflected_pkg fuel1 h0 (Some x) set0) as [b|] eqn:Hb; [|done].
    rewrite (in_reflected_pkg_mono _ _ _ _ _ _ Hle Hb).
    destruct b; intros Hst; eapply IH; try exact Hst; try done.
    eapply same_hierarchy_trans; [exact Hsame|].
    apply same_hierarchy_alter, cascade_super. }
  exists (fuel1 `max` fuel2). intros set h0 Hsame. simpl.
  rewrite (same_hierarchy_in_reflected_pkg _ h h0) by done.
  destruct (Hclazz set) as [b Hb].
  rewrite (in_reflected_pkg_mono _ _ fuel2 (fuel1 `max` fuel2) _ _
             (Nat.le_max_r _ _) Hb).
  destruct b; apply Hrest'; try lia; try done.
  eapply same_hierarchy_trans; [exact Hsame|].
  apply same_hierarchy_alter, cascade_super.
Qed.

(** X7.  Whenever the closing loop returns, the reflected set it leaves is the
    initial set together with the classes in scope that are in it or have a
    class of it above them on their superclass chain; those classes are
    marked by name, not from code, with cascade, and every other class is
    left as it was. *)
Theorem close_reflected_packages_closure (fuel : nat) (scope : Scope)
    (set : gset string) (h : ClassTable) (set' : gset string) (h' : ClassTable) :
  close_reflected_packages fuel scope set h = Some (set', h') →
  (∀ x, x ∈ set' ↔ x ∈ set ∨ (x ∈ scope ∧ reaches h set x))
  ∧ (∀ c, c ∈ scope → reaches h set c →
          h' !! c = cascade (ref_by_string false) <$> h !! c)
  ∧ (∀ c, ¬ (c ∈ scope ∧ reaches h set c) → h' !! c = h !! c).
Proof. apply close_reflected_packages_sound. Qed.

(** X8.  The closing loop returns whenever every class in scope has a
    well-founded superclass chain, with a bound on the nested calls that
    depends neither on the initial set nor on the marks already made. *)
Theorem close_reflected_packages_returns (scope : Scope) (h : ClassTable) :
  (∀ c, c ∈ scope → Acc (λ p c, super_of h c p) c) →
  ∃ fuel, ∀ set h0, same_hierarchy h h0 →
    is_Some (close_reflected_packages fuel scope set h0).
Proof. apply close_reflected_packages_enough. Qed.

(* ===================================================================== *)
(** ** The scope as a set, and the configured lists *)
(* ===================================================================== *)

Lemma foldl_alter_scope_set (f : string → DexClass.t → DexClass.t)
    (scope scope' : Scope) (h : ClassTable) :
  (∀ c cls, f c (f c cls) = f c cls) →
  (∀ c, c ∈ scope ↔ c ∈ scope') →
  foldl (λ h cls, alter (f cls) cls h) h scope
  = foldl (λ h cls, alter (f cls) cls h) h scope'.
Proof.
  intros Hf Hset. apply map_eq. intros c.
  rewrite !foldl_alter_lookup by auto.
  destruct (decide (c ∈ scope)) as [Hc|Hc].
  - by rewrite decide_True by by apply Hset.
  - by rewrite decide_False by by rewrite <- Hset.
Qed.

(** X9.  Every loop over the scope depends on the scope as a set only: the
    order of the classes and a class listed twice make no difference to the
    marks left by the annotation keep, the member keep, the method keep, the
    keep-rule patterns and the native-method scan, nor to the seeded
    reflected set. *)
Theorem scope_loops_depend_on_set (scope scope' : Scope) (h : ClassTable)
    (keep : gset string) (annos : AnnoTable) (rules ms pats pkgs : list string)
    (wild : string → string → bool) (native : Entity → bool) :
  (∀ c, c ∈ scope ↔ c ∈ scope') →
  keep_annotated_classes scope keep annos h
  = keep_annotated_classes scope' keep annos h
  ∧ keep_class_members scope rules h = keep_class_members scope' rules h
  ∧ keep_methods scope ms h = keep_methods scope' ms h
  ∧ mark_cls_patterns wild scope pats h = mark_cls_patterns wild scope' pats h
  ∧ recompute_classes_reachable_from_code native scope h
    = recompute_classes_reachable_from_code native scope' h
  ∧ seed_reflected_packages scope pkgs = seed_reflected_packages scope' pkgs.
Proof.
  intros Hset. split_and!.
  - apply (foldl_alter_scope_set (keep_annotated_cls annos keep)); [|done].
    intros. apply keep_annotated_cls_idemp.
  - apply (foldl_alter_scope_set (keep_class_members_rules rules)); [|done].
    intros. apply keep_class_members_rules_idemp.
  - apply (foldl_alter_scope_set (λ _, keep_methods_cls (list_to_set ms))); [|done].
    intros. apply keep_methods_cls_idemp.
  - apply map_eq. intros c. rewrite !mark_cls_patterns_lookup.
    destruct (decide (c ∈ scope)) as [Hc|Hc].
    + by rewrite decide_True by by apply Hset.
    + by rewrite decide_False by by rewrite <- Hset.
  - apply map_eq. intros c. rewrite !recompute_lookup.
    destruct (decide (c ∈ scope)) as [Hc|Hc].
    + by rewrite decide_True by by apply Hset.
    + by rewrite decide_False by by rewrite <- Hset.
  - apply set_eq. intros c. rewrite !elem_of_seed_reflected_packages.
    by rewrite Hset.
Qed.

(* ===================================================================== *)
(** ** keep_methods and keep_class_members on their lists *)
(* ===================================================================== *)

Lemma keep_methods_cls_empty cls : keep_methods_cls ∅ cls = cls.
Proof.
  destruct cls as [sup dm vm sf fi r]. unfold keep_methods_cls. simpl.
  f_equal; (etrans; [|apply list_fmap_id]); apply list_fmap_ext;
    intros i m _; by rewrite decide_False by apply not_elem_of_empty.
Qed.

Lemma keep_methods_cls_union (S1 S2 : gset string) cls :
  keep_methods_cls (S1 ∪ S2) cls = keep_methods_cls S2 (keep_methods_cls S1 cls).
Proof.
  assert (∀ m : DexMethod.t,
    (if decide (DexMethod.get_name m ∈ S1 ∪ S2)
     then on_rstate (ref_by_string false) m else m)
    = (λ m, if decide (DexMethod.get_name m ∈ S2)
            then on_rstate (ref_by_string false) m else m)
        (if decide (DexMethod.get_name m ∈ S1)
         then on_rstate (ref_by_string false) m else m)) as Hm.
  { intros m. simpl.
    destruct (decide (DexMethod.get_name m ∈ S1)) as [H1|H1],
             (decide (DexMethod.get_name m ∈ S2)) as [H2|H2]; simpl.
    - rewrite !decide_True; [|done | apply elem_of_union; auto].
      done.
    - rewrite decide_True, decide_False; [done | done | apply elem_of_union; auto].
    - rewrite decide_True; [done | apply elem_of_union; auto].
    - rewrite decide_False; [done | rewrite elem_of_union; tauto]. }
  unfold keep_methods_cls. simpl. f_equal; rewrite <- list_fmap_compose;
    apply list_fmap_ext; intros i m _; apply Hm.
Qed.

Lemma keep_methods_lookup (scope : Scope) ms (h : ClassTable) c :
  keep_methods scope ms h !! c
  = if decide (c ∈ scope) then keep_methods_cls (list_to_set ms) <$> h !! c
    else h !! c.
Proof.
  unfold keep_methods.
  apply (foldl_alter_lookup (λ _, keep_methods_cls (list_to_set ms))).
  apply keep_methods_cls_idemp.
Qed.

(** X10.  [keep_methods] with two lists of names one after the other is
    [keep_methods] with the concatenated list; the empty list changes
    nothing, and only the set of configured names counts. *)
Theorem keep_methods_lists (scope : Scope) (ms1 ms2 : list string)
    (h : ClassTable) :
  keep_methods scope (ms1 ++ ms2) h
  = keep_methods scope ms2 (keep_methods scope ms1 h)
  ∧ keep_methods scope [] h = h
  ∧ ((∀ m, m ∈ ms1 ↔ m ∈ ms2) →
     keep_methods scope ms1 h = keep_methods scope ms2 h).
Proof.
  split_and!.
  - apply map_eq. intros c. rewrite !keep_methods_lookup.
    case_decide; [|done]. rewrite list_to_set_app_L.
    destruct (h !! c) as [cls|]; [|done]. simpl. f_equal.
    apply keep_methods_cls_union.
  - apply map_eq. intros c. rewrite keep_methods_lookup.
    case_decide; [|done]. destruct (h !! c) as [cls|]; [|done]. simpl. f_equal.
    apply keep_methods_cls_empty.
  - intros Hset. unfold keep_methods.
    assert ((list_to_set ms1 : gset string) = list_to_set ms2) as ->; [|done].
    apply set_eq. intros m. by rewrite !elem_of_list_to_set.
Qed.

Lemma keep_class_members_lookup (scope : Scope) rules (h : ClassTable) c :
  keep_class_members scope rules h !! c
  = if decide (c ∈ scope) then keep_class_members_rules rules c <$> h !! c
    else h !! c.
Proof.
  unfold keep_class_members.
  apply (foldl_alter_lookup (keep_class_members_rules rules)).
  intros. apply keep_class_members_rules_idemp.
Qed.

Lemma keep_class_members_cls_no_sfields rem_str cls :
  DexClass.get_sfields cls = [] → keep_class_members_cls rem_str cls = cls.
Proof.
  destruct cls as [sup dm vm sf fi r]. simpl. intros ->. done.
Qed.

Lemma rule_remainder_shadow (rs1 rs2 : list string) r name :
  Substring name (c_str r) →
  rule_remainder (rs1 ++ r :: rs2) name = rule_remainder (rs1 ++ [r]) name.
Proof.
  intros Hr%find_is_Some. induction rs1 as [|r1 rs1 IH]; simpl.
  - by destruct Hr as [pos ->].
  - by destruct (find (c_str r1) name).
Qed.

(** X11.  [keep_class_members] with no rule changes nothing; a class that
    declares no static field is never marked, whatever the rules; and once a
    rule holds the descriptor of a class, the rules after it are dead for
    that class, also when that rule names none of its fields. *)
Theorem keep_class_members_edges (scope : Scope) (h : ClassTable) :
  keep_class_members scope [] h = h
  ∧ (∀ rules c cls, h !! c = Some cls → DexClass.get_sfields cls = [] →
       keep_class_members scope rules h !! c = Some cls)
  ∧ (∀ (rs1 rs2 : list string) r c, Substring c (c_str r) →
       keep_class_members scope (rs1 ++ r :: rs2) h !! c
       = keep_class_members scope (rs1 ++ [r]) h !! c).
Proof.
  split_and!.
  - apply map_eq. intros c. rewrite keep_class_members_lookup.
    case_decide; [|done]. by destruct (h !! c).
  - intros rules c cls Hc Hsf. rewrite keep_class_members_lookup, Hc.
    case_decide; [|done]. simpl. rewrite keep_class_members_rules_eq.
    destruct (rule_remainder rules c); [|done].
    by rewrite keep_class_members_cls_no_sfields.
  - intros rs1 rs2 r c Hr. rewrite !keep_class_members_lookup.
    case_decide; [|done]. destruct (h !! c) as [cls|]; [|done]. simpl.
    by rewrite !keep_class_members_rules_eq, (rule_remainder_shadow rs1 rs2).
Qed.

(* ===================================================================== *)
(** ** Seed files: order, repetition, unresolved names *)
(* ===================================================================== *)

Lemma init_seed_classes_eq lines g :
  init_seed_classes (Some lines) g
  = ((Z.of_nat (length (omap (seed_type (g_types g)) lines)) mod UINT_MODULUS)%Z,
     Ctx (g_types g)
         (foldl (λ h t, alter (on_rstate ref_by_seed) t h) (g_classes g)
                (omap (seed_type (g_types g)) lines))).
Proof.
  unfold init_seed_classes.
  by rewrite foldl_seed_line by (unfold UINT_MODULUS; lia).
Qed.

Lemma seed_marks_lookup (D : list string) (h : ClassTable) c :
  foldl (λ h t, alter (on_rstate ref_by_seed) t h) h D !! c
  = if decide (c ∈ D) then on_rstate ref_by_seed <$> h !! c else h !! c.
Proof.
  apply (foldl_alter_lookup (λ _, on_rstate ref_by_seed)).
  apply on_rstate_seed_idemp.
Qed.

Lemma seed_marks_app (D1 D2 : list string) (h : ClassTable) :
  foldl (λ h t, alter (on_rstate ref_by_seed) t h) h (D1 ++ D2)
  = foldl (λ h t, alter (on_rstate ref_by_seed) t h)
          (foldl (λ h t, alter (on_rstate ref_by_seed) t h) h D1) D2.
Proof. apply foldl_app. Qed.

(** X12.  A seed line whose descriptor is not a known type is skipped like a
    malformed one: the count and the marks are those of the same file
    without the line; and an empty file gives 0 and changes nothing. *)
Theorem init_seed_classes_unresolved (g : RedexContext) :
  init_seed_classes (Some []) g = (0%Z, g)
  ∧ ∀ l1 line l2,
      descriptor_of_dotname line ∉ g_types g →
      init_seed_classes (Some (l1 ++ line :: l2)) g
      = init_seed_classes (Some (l1 ++ l2)) g.
Proof.
  split; [by destruct g|]. intros l1 line l2 Hline.
  rewrite !init_seed_classes_eq, !omap_app. simpl.
  assert (seed_type (g_types g) line = None) as ->; [|done].
  unfold seed_type. case_decide; [done|]. by rewrite decide_False.
Qed.

(** X13.  The order of the lines of a seed file does not matter, reading one
    file after another is reading their concatenation (the counts add up
    modulo [2^32]), and reading the same file again returns the same count
    and leaves the program as the first reading left it. *)
Theorem init_seed_classes_files (lines lines' : list string) (g : RedexContext) :
  (lines ≡ₚ lines' →
   init_seed_classes (Some lines) g = init_seed_classes (Some lines') g)
  ∧ init_seed_classes (Some (lines ++ lines')) g
    = ((((init_seed_classes (Some lines) g).1
         + (init_seed_classes (Some lines')
                              (init_seed_classes (Some lines) g).2).1)
        mod UINT_MODULUS)%Z,
       (init_seed_classes (Some lines') (init_seed_classes (Some lines) g).2).2)
  ∧ init_seed_classes (Some lines) (init_seed_classes (Some lines) g).2
    = init_seed_classes (Some lines) g.
Proof.
  split_and!.
  - intros Hperm. rewrite !init_seed_classes_eq.
    assert (omap (seed_type (g_types g)) lines
            ≡ₚ omap (seed_type (g_types g)) lines') as HD by by rewrite Hperm.
    rewrite (Permutation_length HD). do 2 f_equal.
    apply (foldl_alter_scope_set (λ _, on_rstate ref_by_seed)).
    + intros. apply on_rstate_seed_idemp.
    + intros c. by rewrite HD.
  - rewrite !init_seed_classes_eq. simpl. rewrite omap_app, length_app.
    rewrite seed_marks_app. f_equal.
    rewrite <- Zplus_mod, Nat2Z.inj_add. done.
  - rewrite !init_seed_classes_eq. simpl. do 2 f_equal.
    rewrite <- seed_marks_app. apply map_eq. intros c.
    rewrite !seed_marks_lookup.
    destruct (decide (c ∈ omap (seed_type (g_types g)) lines)) as [Hc|Hc].
    + rewrite decide_True; [done | apply elem_of_app; auto].
    + rewrite decide_False; [done | rewrite elem_of_app; tauto].
Qed.

(* ===================================================================== *)
(** ** Keep-rule patterns with any matcher *)
(* ===================================================================== *)

Lemma existsb_elem_of {A} (p : A → bool) (l : list A) :
  existsb p l = true ↔ ∃ x, x ∈ l ∧ p x = true.
Proof.
  rewrite existsb_exists. by setoid_rewrite list_elem_of_In.
Qed.

(** X14.  Whatever the matcher answers on wildcards, the pattern loop marks
    directly, with cascade, exactly the classes in scope that at least one
    pattern matches, once for however many patterns match; without patterns
    it changes nothing, and only the set of patterns counts. *)
Theorem mark_cls_patterns_any_match (wild : string → string → bool)
    (scope : Scope) (pats : list string) (h : ClassTable) :
  (∀ c, c ∈ scope →
     (∃ pat, pat ∈ pats
             ∧ type_matches wild (c_str pat) c (String.length pat) (strlen c) = true) →
     mark_cls_patterns wild scope pats h !! c = cascade ref_by_type <$> h !! c)
  ∧ (∀ c, ¬ (c ∈ scope
             ∧ ∃ pat, pat ∈ pats
                      ∧ type_matches wild (c_str pat) c (String.length pat)
                                     (strlen c) = true) →
     mark_cls_patterns wild scope pats h !! c = h !! c)
  ∧ mark_cls_patterns wild scope [] h = h
  ∧ (∀ pats', (∀ pat, pat ∈ pats ↔ pat ∈ pats') →
     mark_cls_patterns wild scope pats h = mark_cls_patterns wild scope pats' h).
Proof.
  split_and!.
  - intros c Hc Hpat. rewrite mark_cls_patterns_lookup, decide_True by done.
    apply existsb_elem_of in Hpat. by rewrite Hpat.
  - intros c Hno. rewrite mark_cls_patterns_lookup. case_decide; [|done].
    destruct (existsb _ pats) eqn:Hex.
    + apply existsb_elem_of in Hex. tauto.
    + by destruct (h !! c).
  - apply map_eq. intros c. rewrite mark_cls_patterns_lookup.
    case_decide; [|done]. by destruct (h !! c).
  - intros pats' Hset. apply map_eq. intros c.
    rewrite !mark_cls_patterns_lookup. case_decide; [|done].
    assert (existsb (λ pat, type_matches wild (c_str pat) c (String.length pat)
                              (strlen c)) pats
            = existsb (λ pat, type_matches wild (c_str pat) c (String.length pat)
                                (strlen c)) pats') as ->; [|done].
    apply eq_true_iff_eq. rewrite !existsb_elem_of. by setoid_rewrite Hset.
Qed.

(* ===================================================================== *)
(** ** Reports *)
(* ===================================================================== *)

Lemma filter_sublist_impl {A} (P Q : A → Prop) `{∀ x, Decision (P x)}
    `{∀ x, Decision (Q x)} (l : list A) :
  (∀ x, P x → Q x) → filter P l `sublist_of` filter Q l.
Proof.
  intros HPQ. induction l as [|x l IH]; [done|].
  rewrite !filter_cons. destruct (decide (P x)) as [HP|HP].
  - rewrite decide_True by auto. by apply sublist_skip.
  - destruct (decide (Q x)); [by apply sublist_cons | done].
Qed.

Lemma class_has_is_seed (h : ClassTable) c :
  class_has is_seed h c = true ↔ c ∈ seeded h.
Proof.
  rewrite elem_of_seeded. unfold class_has, is_seed.
  destruct (h !! c) as [cls|]; split; try done.
  - eauto.
  - by intros (? & [= <-] & ?).
  - by intros (? & ? & _).
Qed.

Lemma seeded_after_marks (D : list string) (h : ClassTable) :
  seeded (foldl (λ h t, alter (on_rstate ref_by_seed) t h) h D)
  = seeded h ∪ (list_to_set D ∩ dom h).
Proof.
  apply set_eq. intros c.
  rewrite elem_of_union, elem_of_intersection, elem_of_list_to_set, elem_of_dom,
    !elem_of_seeded, seed_marks_lookup.
  case_decide as Hc.
  - destruct (h !! c) as [cls|]; simpl.
    + split; [intros _; right; eauto | intros _; eauto].
    + split; [by intros (? & ? & ?) | intros [(? & ? & ?)|[_ []]]; done].
  - split; [by left | intros [?|[? _]]; done].
Qed.

(** X15.  In the three reports the classes come in scope order, every class of
    the must-keep report is in the cannot-rename report and every class of
    the cannot-rename report is in the cannot-delete report; and after a
    seed file is read the must-keep report lists the classes of the scope
    that were seeds before or that the program defines and an accepted line
    of the file names. *)
Theorem report_after_seeds (scope : Scope) (lines : list string)
    (g : RedexContext) (h : ClassTable) :
  must_keep (reportReachableClasses scope h)
    `sublist_of` cant_rename (reportReachableClasses scope h)
  ∧ cant_rename (reportReachableClasses scope h)
    `sublist_of` cant_delete (reportReachableClasses scope h)
  ∧ cant_delete (reportReachableClasses scope h) `sublist_of` scope
  ∧ must_keep (reportReachableClasses scope
                 (g_classes (init_seed_classes (Some lines) g).2))
    = filter (λ c, c ∈ seeded (g_classes g)
                   ∨ (c ∈ omap (seed_type (g_types g)) lines
                      ∧ c ∈ dom (g_classes g))) scope.
Proof.
  split_and!.
  - simpl. apply filter_sublist_impl. intros c. unfold class_has.
    destruct (h !! c) as [cls|]; [|done].
    destruct (DexClass.rstate cls) as [[] [] [] []]; done.
  - simpl. apply filter_sublist_impl. intros c. unfold class_has.
    destruct (h !! c) as [cls|]; [|done].
    destruct (DexClass.rstate cls) as [[] [] [] []]; done.
  - simpl. apply sublist_filter.
  - rewrite init_seed_classes_eq. simpl. apply list_filter_iff. intros c.
    rewrite class_has_is_seed, seeded_after_marks, elem_of_union,
      elem_of_intersection, elem_of_list_to_set. done.
Qed.

(* ===================================================================== *)
(** ** What the whole evaluation preserves *)
(* ===================================================================== *)

Section member_rel.
Context {T : Type} `{HasRState T}.
Hypothesis get_with : ∀ r (m : T), rstate_of (with_rstate r m) = r.
Hypothesis with_with : ∀ r r' (m : T),
with_rstate r (with_rstate r' m) = with_rstate r m.
Hypothesis with_get : ∀ m : T, with_rstate (rstate_of m) m = m.
Variable R : relation ReferencedState.
Hypothesis R_refl : ∀ r, R r r.
Hypothesis R_trans : ∀ r1 r2 r3, R r1 r2 → R r2 r3 → R r1 r3.

Lemma member_rel_refl (m : T) : member_rel R m m.
Proof. split; [apply R_refl | apply with_get]. Qed.

Lemma member_rel_trans (m1 m2 m3 : T) :
member_rel R m1 m2 → member_rel R m2 m3 → member_rel R m1 m3.
Proof.
intros [HR12 H12] [HR23 H23]. split; [by eapply R_trans|].
by rewrite <- H23, with_with in H12.
Qed.

Lemma member_rel_on_rstate op (m : T) :
(∀ r, R r (op r)) → member_rel R m (on_rstate op m).
Proof.
intros Hop. unfold on_rstate. split.
- by rewrite get_with.
- by rewrite with_with, with_get.
Qed.

Lemma Forall2_member_rel_refl (l : list T) : Forall2 (member_rel R) l l.
Proof. induction l; constructor; [apply member_rel_refl | done]. Qed.

Lemma Forall2_member_rel_trans (l1 l2 l3 : list T) :
Forall2 (member_rel R) l1 l2 → Forall2 (member_rel R) l2 l3 →
Forall2 (member_rel R) l1 l3.
Proof.
intros H12. revert l3. induction H12; intros l3 H23; inversion H23; subst;
  constructor; [by eapply member_rel_trans | eauto].
Qed.

Lemma Forall2_member_rel_fmap (F : T → T) (l : list T) :
(∀ m, member_rel R m (F m)) → Forall2 (member_rel R) l (F <$> l).
Proof. intros HF. induction l; constructor; [apply HF | done]. Qed.

Lemma Forall2_member_rel_imap (F : nat → T → T) (l : list T) :
(∀ j m, member_rel R m (F j m)) → Forall2 (member_rel R) l (imap F l).
Proof.
intros HF. revert F HF. induction l as [|m l IH]; intros F HF; simpl;
  constructor; [apply HF|]. apply IH. intros j m'. apply HF.
Qed.

End member_rel.

Section table_rel.
Variable R : relation ReferencedState.
Hypothesis R_refl : ∀ r, R r r.
Hypothesis R_trans : ∀ r1 r2 r3, R r1 r2 → R r2 r3 → R r1 r3.
Hypothesis R_type : ∀ r, R r (ref_by_type r).
Hypothesis R_string : ∀ b r, R r (ref_by_string b r).

Lemma cls_rel_refl cls : cls_rel R cls cls.
Proof.
split; try done;
  apply Forall2_member_rel_refl; auto using method_with_get, field_with_get.
Qed.

Lemma cls_rel_trans c1 c2 c3 : cls_rel R c1 c2 → cls_rel R c2 c3 → cls_rel R c1 c3.
Proof.
intros [E1 D1 V1 S1 I1 R1] [E2 D2 V2 S2 I2 R2]. split.
- congruence.
- eapply Forall2_member_rel_trans; eauto using method_with_with.
- eapply Forall2_member_rel_trans; eauto using method_with_with.
- eapply Forall2_member_rel_trans; eauto using field_with_with.
- eapply Forall2_member_rel_trans; eauto using field_with_with.
- eauto.
Qed.

Lemma cls_rel_cascade op cls : (∀ r, R r (op r)) → cls_rel R cls (cascade op cls).
Proof.
intros Hop. split; simpl; try done;
  apply Forall2_member_rel_fmap; intros m; apply member_rel_on_rstate;
  auto using method_get_with, field_get_with, method_with_with,
    field_with_with, method_with_get, field_with_get.
Qed.

Lemma cls_rel_keep_annotated_cls annos keep c cls :
cls_rel R cls (keep_annotated_cls annos keep c cls).
Proof.
split; simpl; try done.
- apply Forall2_member_rel_imap. intros j m.
  destruct (anno_set_contains _ keep).
  + exact (member_rel_on_rstate method_get_with method_with_with
             method_with_get R ref_by_type m R_type).
  + apply member_rel_refl; auto using method_with_get.
- apply Forall2_member_rel_imap. intros j m.
  destruct (anno_set_contains _ keep).
  + exact (member_rel_on_rstate method_get_with method_with_with
             method_with_get R ref_by_type m R_type).
  + apply member_rel_refl; auto using method_with_get.
- apply Forall2_member_rel_imap. intros j m.
  destruct (anno_set_contains _ keep).
  + exact (member_rel_on_rstate field_get_with field_with_with
             field_with_get R ref_by_type m R_type).
  + apply member_rel_refl; auto using field_with_get.
- apply Forall2_member_rel_imap. intros j m.
  destruct (anno_set_contains _ keep).
  + exact (member_rel_on_rstate field_get_with field_with_with
             field_with_get R ref_by_type m R_type).
  + apply member_rel_refl; auto using field_with_get.
- destruct (anno_set_contains _ keep); simpl; auto.
Qed.

Lemma cls_rel_keep_methods_cls S cls : cls_rel R cls (keep_methods_cls S cls).
Proof.
split; simpl; try done.
- apply Forall2_member_rel_fmap. intros m.
  destruct (decide (DexMethod.get_name m ∈ S)).
  + exact (member_rel_on_rstate method_get_with method_with_with
             method_with_get R (ref_by_string false) m (R_string false)).
  + apply member_rel_refl; auto using method_with_get.
- apply Forall2_member_rel_fmap. intros m.
  destruct (decide (DexMethod.get_name m ∈ S)).
  + exact (member_rel_on_rstate method_get_with method_with_with
             method_with_get R (ref_by_string false) m (R_string false)).
  + apply member_rel_refl; auto using method_with_get.
- apply Forall2_member_rel_refl; auto using field_with_get.
- apply Forall2_member_rel_refl; auto using field_with_get.
Qed.

Lemma cls_rel_keep_class_members_rules rules name cls :
cls_rel R cls (keep_class_members_rules rules name cls).
Proof.
rewrite keep_class_members_rules_eq.
destruct (rule_remainder rules name) as [rem_str|]; [|apply cls_rel_refl].
unfold keep_class_members_cls. rewrite keep_class_members_sfields_eq.
split; simpl; try done.
- apply Forall2_member_rel_refl; auto using method_with_get.
- apply Forall2_member_rel_refl; auto using method_with_get.
- apply Forall2_member_rel_fmap. intros f.
  destruct (find rem_str (DexField.get_name f)).
  + exact (member_rel_on_rstate field_get_with field_with_with
             field_with_get R ref_by_type f R_type).
  + apply member_rel_refl; auto using field_with_get.
- apply Forall2_member_rel_refl; auto using field_with_get.
- destruct (existsb _ (DexClass.get_sfields cls)); auto.
Qed.

Lemma table_rel_refl (h : ClassTable) : table_rel R h h.
Proof.
intros c. destruct (h !! c); constructor. apply cls_rel_refl.
Qed.

Lemma table_rel_trans (h1 h2 h3 : ClassTable) :
table_rel R h1 h2 → table_rel R h2 h3 → table_rel R h1 h3.
Proof.
intros H12 H23 c. specialize (H12 c). specialize (H23 c).
destruct H12 as [x y Hxy|]; inversion H23; subst; constructor.
by eapply cls_rel_trans.
Qed.

Lemma table_rel_alter (F : DexClass.t → DexClass.t) c (h : ClassTable) :
(∀ cls, cls_rel R cls (F cls)) → table_rel R h (alter F c h).
Proof.
intros HF c'. destruct (decide (c = c')) as [->|Hne].
- rewrite lookup_alter_eq. destruct (h !! c'); constructor. apply HF.
- rewrite lookup_alter_ne by done. apply table_rel_refl.
Qed.

Lemma table_rel_foldl {A} (step : ClassTable → A → ClassTable) (l : list A) h :
(∀ h x, table_rel R h (step h x)) → table_rel R h (foldl step h l).
Proof.
intros Hstep. revert h. induction l as [|x l IH]; intros h; simpl.
- apply table_rel_refl.
- eapply table_rel_trans; [apply Hstep | apply IH].
Qed.

Lemma table_rel_mark_by_type t b (h : ClassTable) :
table_rel R h (mark_reachable_by_classname_type (Some t) b h).
Proof.
rewrite mark_reachable_by_classname_type_alter.
apply table_rel_alter. intros. by apply cls_rel_cascade.
Qed.

Lemma table_rel_mark_by_name types classname b (h : ClassTable) :
table_rel R h (mark_reachable_by_classname_str (Ctx types h) classname b).
Proof.
rewrite mark_reachable_by_classname_str_alter. simpl.
case_decide; [|apply table_rel_refl].
apply table_rel_alter. intros. by apply cls_rel_cascade.
Qed.

Lemma table_rel_mark_apk_classes readers types apk_dir h :
table_rel R h (mark_apk_classes readers types apk_dir h).
Proof.
unfold mark_apk_classes. case_decide; [apply table_rel_refl|].
eapply table_rel_trans.
{ apply (table_rel_foldl
           (λ h classname,
              mark_reachable_by_classname_str (Ctx types h) classname false)).
  intros. apply table_rel_mark_by_name. }
eapply table_rel_trans.
{ apply (table_rel_foldl
           (λ h classname,
              mark_reachable_by_classname_str (Ctx types h) classname false)).
  intros. apply table_rel_mark_by_name. }
apply table_rel_foldl. intros h' x. destruct (get_type types (c_str x));
  [apply table_rel_mark_by_type | apply table_rel_refl].
Qed.







Lemma table_rel_same_hierarchy (h h' : ClassTable) :
table_rel R h h' → same_hierarchy h h'.
Proof.
intros Hrel c. destruct (Hrel c) as [cls cls' [E _ _ _ _ _]|]; simpl.
- split; [done | by split; eauto].
- split; [done | by split; intros []].
Qed.
End table_rel.

Lemma marked_not_seeded_refl r : marked_not_seeded r r.
Proof. split; [reflexivity | done]. Qed.

Lemma marked_not_seeded_trans r1 r2 r3 :
  marked_not_seeded r1 r2 → marked_not_seeded r2 r3 → marked_not_seeded r1 r3.
Proof. intros [? ?] [? ?]. split; [by etrans | congruence]. Qed.

Lemma marked_not_seeded_type r : marked_not_seeded r (ref_by_type r).
Proof. split; [apply ref_by_type_le | done]. Qed.

Lemma marked_not_seeded_string b r : marked_not_seeded r (ref_by_string b r).
Proof. split; [apply ref_by_string_le | by destruct b]. Qed.


(* ===================================================================== *)
(** ** When the whole evaluation returns, and the empty configuration *)
(* ===================================================================== *)

Lemma same_hierarchy_rule_sources readers annos scope config no_opt g :
  same_hierarchy (g_classes g)
    (mark_apk_classes readers (g_types g) (PassConfig.apk_dir config)
       (keep_methods scope (PassConfig.keep_methods config)
          (keep_class_members scope (PassConfig.keep_class_members config)
             (keep_annotated_classes scope
                (annotation_types (g_types g) no_opt
                                  (PassConfig.keep_annotations config))
                annos (g_classes g))))).
Proof.
  apply (table_rel_same_hierarchy marked_not_seeded).
  pose proof marked_not_seeded_refl as Hrefl.
  pose proof marked_not_seeded_trans as Htrans.
  pose proof marked_not_seeded_type as Hty.
  pose proof marked_not_seeded_string as Hstr.
  eapply table_rel_trans; [done| |by apply table_rel_mark_apk_classes].
  eapply table_rel_trans; [done| |apply table_rel_foldl; try done; intros;
                            by apply table_rel_alter, cls_rel_keep_methods_cls].
  eapply table_rel_trans; [done| |apply table_rel_foldl; try done; intros;
                            by apply table_rel_alter,
                                 cls_rel_keep_class_members_rules].
  apply table_rel_foldl; try done. intros.
  by apply table_rel_alter, cls_rel_keep_annotated_cls.
Qed.

(** X17.  [init_reachable_classes] returns whenever every class in scope has a
    well-founded superclass chain, whatever the configuration, the keep
    rules, the annotations and the package readers; the bound on the nested
    calls of [in_reflected_pkg] depends on the hierarchy only. *)
Theorem init_reachable_classes_returns (scope : Scope) (g : RedexContext) :
  (∀ c, c ∈ scope → Acc (λ p c, super_of (g_classes g) c p) c) →
  ∃ fuel, ∀ readers wild annos native config rules no_opt,
    is_Some (init_reachable_classes fuel readers wild annos native scope config
               rules no_opt g).
Proof.
  intros Hacc.
  destruct (close_reflected_packages_enough scope (g_classes g) Hacc)
    as [fuel Hfuel].
  exists fuel. intros readers wild annos native config rules no_opt.
  unfold init_reachable_classes, init_permanently_reachable_classes.
  destruct (Hfuel (seed_reflected_packages scope (PassConfig.keep_packages config))
              _ (same_hierarchy_rule_sources readers annos scope config no_opt g))
    as [[set' h'] ->].
  eauto.
Qed.

Lemma anno_set_contains_empty anno_set : anno_set_contains anno_set ∅ = false.
Proof.
  destruct anno_set as [l|]; [|done]. simpl.
  induction l as [|a l IH]; [done|]. simpl. rewrite IH.
  by rewrite bool_decide_eq_false_2 by apply not_elem_of_empty.
Qed.

Lemma keep_annotated_classes_empty scope annos (h : ClassTable) :
  keep_annotated_classes scope ∅ annos h = h.
Proof.
  apply map_eq. intros c. unfold keep_annotated_classes.
  rewrite (foldl_alter_lookup (keep_annotated_cls annos ∅))
    by (intros; apply keep_annotated_cls_idemp).
  case_decide; [|done]. destruct (h !! c) as [cls|]; [|done]. simpl. f_equal.
  rewrite keep_annotated_cls_as_mask.
  rewrite <- (mask_class_id cls) at 2.
  apply mask_class_ext; intros; by rewrite anno_set_contains_empty.
Qed.

Lemma reaches_empty (h : ClassTable) c : ¬ reaches h ∅ c.
Proof. by intros (a & _ & Ha%not_elem_of_empty). Qed.

(** X18.  With an empty configuration, no keep rule and no annotation to keep,
    and no native method, [init_reachable_classes] returns the program as it
    was (on a hierarchy with well-founded superclass chains). *)
Theorem init_reachable_classes_empty_config (scope : Scope) (g : RedexContext) :
  (∀ c, c ∈ scope → Acc (λ p c, super_of (g_classes g) c p) c) →
  ∃ fuel, ∀ readers wild annos,
    init_reachable_classes fuel readers wild annos (λ _, false) scope
      PassConfig.empty [] ∅ g = Some g.
Proof.
  intros Hacc.
  destruct (close_reflected_packages_enough scope (g_classes g) Hacc)
    as [fuel Hfuel].
  exists fuel. intros readers wild annos.
  unfold init_reachable_classes, init_permanently_reachable_classes. simpl.
  rewrite keep_annotated_classes_empty.
  assert (keep_class_members scope [] (g_classes g) = g_classes g) as ->.
  { apply map_eq. intros c. rewrite keep_class_members_lookup.
    case_decide; [|done]. by destruct (g_classes g !! c). }
  assert (keep_methods scope [] (g_classes g) = g_classes g) as ->.
  { apply map_eq. intros c. rewrite keep_methods_lookup.
    case_decide; [|done]. destruct (g_classes g !! c) as [cls|]; [|done].
    simpl. f_equal. apply keep_methods_cls_empty. }
  unfold mark_apk_classes. simpl.
  assert (seed_reflected_packages scope [] = ∅) as ->.
  { apply set_eq. intros c. rewrite elem_of_seed_reflected_packages.
    split; [intros (_ & ? & []%elem_of_nil & _) | by intros ?%not_elem_of_empty]. }
  destruct (Hfuel ∅ (g_classes g) (same_hierarchy_refl _)) as [[set' h'] Hclose].
  rewrite Hclose.
  apply close_reflected_packages_sound in Hclose as (_ & _ & Hframe).
  assert (h' = g_classes g) as ->.
  { apply map_eq. intros c. apply Hframe. intros [_ []%reaches_empty]. }
  assert (mark_cls_patterns wild scope [] (g_classes g) = g_classes g) as Hpat.
  { apply map_eq. intros c. rewrite mark_cls_patterns_lookup.
    case_decide; [|done]. by destruct (g_classes g !! c). }
  simpl. rewrite Hpat.
  assert (recompute_classes_reachable_from_code (λ _, false) scope (g_classes g)
          = g_classes g) as ->.
  { apply map_eq. intros c. rewrite recompute_lookup.
    case_decide; [|done]. destruct (g_classes g !! c) as [cls|]; [|done]. simpl.
    assert (existsb (λ _, false) (class_methods c cls) = false) as ->; [|done].
    by induction (class_methods c cls). }
  by destruct g.
Qed.

(* ===================================================================== *)
(** ** The answers of in_reflected_pkg *)
(* ===================================================================== *)

(** X19.  Whatever [in_reflected_pkg] returns is right, on any hierarchy: it
    returns [true] only for a class that is in the set or has a class of the
    set above it, and [false] only for a class that has none; a deeper bound
    on the nested calls gives the same answer; a null class gives [false];
    and for a class that has a class of the set on its chain the call
    returns, cyclic hierarchy or not. *)
Theorem in_reflected_pkg_answers (h : ClassTable) (set : gset string) (c : string) :
  (∀ fuel b, in_reflected_pkg fuel h (Some c) set = Some b →
     (b = true ↔ reaches h set c)
     ∧ ∀ fuel', fuel ≤ fuel' → in_reflected_pkg fuel' h (Some c) set = Some b)
  ∧ (∀ fuel, in_reflected_pkg (S fuel) h None set = Some false)
  ∧ (reaches h set c → in_reflected_pkg_returns h (Some c) set true).
Proof.
  split_and!.
  - intros fuel b Hb. split; [by eapply in_reflected_pkg_sound|].
    intros fuel' Hle. by eapply in_reflected_pkg_mono.
  - done.
  - apply in_reflected_pkg_reaches.
Qed.

(* ===================================================================== *)
(** ** Marks on one entity *)
(* ===================================================================== *)

Lemma entity_rstate_update_entity op e (h : ClassTable) e' :
  entity_rstate (update_entity op e h) e'
  = if decide (e' = e) then op <$> entity_rstate h e' else entity_rstate h e'.
Proof.
  destruct (decide (entity_class e' = entity_class e)) as [Hc|Hc].
  - destruct e as [c|c i|c i|c i|c i], e' as [c'|c' i'|c' i'|c' i'|c' i'];
      simpl in *; subst c'; rewrite lookup_alter_eq;
      (destruct (h !! c) as [cls|]; simpl; [|first [done | by case_decide]]);
      first
        [ done
        | by rewrite decide_True by done
        | by rewrite decide_False by congruence
        | destruct (decide (i' = i)) as [->|Hi];
          [ rewrite decide_True by done; rewrite list_lookup_alter_eq;
            match goal with |- context [?l !! i] => by destruct (l !! i) end
          | rewrite decide_False by congruence;
            by rewrite list_lookup_alter_ne by done ] ].
  - rewrite decide_False by congruence.
    destruct e; simpl in *; by apply entity_rstate_alter_ne.
Qed.

(** X20.  The non-cascading marks change the state of the one entity they are
    given and of no other: the class, method or field that is marked gets
    the fact, marking a class alone leaves its members as they were, and
    marking a member leaves its class and its siblings as they were. *)
Theorem mark_only_touches_one_entity (e : Entity) (h : ClassTable)
    (rs : ReferencedState) :
  entity_rstate h e = Some rs →
  (entity_rstate (mark_only_reachable_directly_at e h) e = Some (ref_by_type rs)
   ∧ ∀ e', e' ≠ e →
       entity_rstate (mark_only_reachable_directly_at e h) e' = entity_rstate h e')
  ∧ (∀ b,
       entity_rstate (run_mark h (MarkOnlyByName e b)) e = Some (ref_by_string b rs)
       ∧ ∀ e', e' ≠ e →
           entity_rstate (run_mark h (MarkOnlyByName e b)) e' = entity_rstate h e').
Proof.
  intros He. split; [|intros b]; (split; [|intros e' Hne]).
  - unfold mark_only_reachable_directly_at.
    by rewrite entity_rstate_update_entity, decide_True, He.
  - unfold mark_only_reachable_directly_at.
    by rewrite entity_rstate_update_entity, decide_False.
  - simpl. by rewrite entity_rstate_update_entity, decide_True, He.
  - simpl. by rewrite entity_rstate_update_entity, decide_False.
Qed.

(* ===================================================================== *)
(** ** The configured annotations and the package readers *)
(* ===================================================================== *)

(** X21.  The annotation types the evaluator keeps are the caller's
    no-optimization types together with the configured names that are known
    types; a configured name that is no known type is dropped. *)
Theorem annotation_types_known (types no_opt : gset string)
    (annotations : list string) (t : string) :
  t ∈ annotation_types types no_opt annotations
  ↔ t ∈ no_opt ∨ (t ∈ types ∧ ∃ a, a ∈ annotations ∧ t = c_str a).
Proof.
  unfold annotation_types. revert no_opt.
  induction annotations as [|a l IH]; intros no_opt; simpl.
  - split; [by left | intros [?|(_ & ? & []%elem_of_nil & _)]; done].
  - rewrite IH. unfold get_type. case_decide as Ha.
    + rewrite elem_of_union, elem_of_singleton. split.
      * intros [[->|?]|(? & a' & ? & ->)]; [right|by left|right].
        -- split; [done|]. exists a. split; [by left | done].
        -- split; [done|]. exists a'. split; [by right | done].
      * intros [?|(? & a' & [->|?]%elem_of_cons & ->)]; eauto 6.
    + split.
      * intros [?|(? & a' & ? & ->)]; [by left|right].
        split; [done|]. exists a'. split; [by right | done].
      * intros [?|(? & a' & [->|?]%elem_of_cons & ->)]; eauto 6. done.
Qed.

Lemma mark_by_names_lookup types (names : list string) (h : ClassTable) c :
  foldl (λ h classname,
           mark_reachable_by_classname_str (Ctx types h) classname false) h names
  !! c
  = if decide (c ∈ types ∧ c ∈ c_str <$> names)
    then cascade (ref_by_string false) <$> h !! c else h !! c.
Proof.
  revert h. induction names as [|name names IH]; intros h.
  - simpl. rewrite decide_False; [done|]. by intros [_ []%elem_of_nil].
  - cbn [foldl]. rewrite IH, mark_reachable_by_classname_str_alter.
    cbn [g_types g_classes]. rewrite fmap_cons.
    destruct (decide (c ∈ types ∧ c ∈ c_str <$> names)) as [[Hty Hn]|Hno].
    + rewrite (decide_True (P := c ∈ types ∧ c ∈ c_str name :: (c_str <$> names)))
        by (split; [done | by right]).
      destruct (decide (c_str name ∈ types)); [|done].
      destruct (decide (c_str name = c)) as [->|Hne].
      * rewrite lookup_alter_eq. destruct (h !! c); simpl; [|done].
        f_equal. apply cascade_idemp, ref_by_string_twice.
      * by rewrite lookup_alter_ne.
    + destruct (decide (c_str name = c)) as [<-|Hne].
      * destruct (decide (c_str name ∈ types)) as [Hty|Hty].
        -- rewrite lookup_alter_eq, decide_True; [done|].
           split; [done | by left].
        -- rewrite decide_False; [done|]. by intros [? _].
      * rewrite (decide_False
                   (P := c ∈ types ∧ c ∈ c_str name :: (c_str <$> names))).
        -- destruct (decide (c_str name ∈ types)); [by rewrite lookup_alter_ne | done].
        -- intros (Hty & [?|Hn]%elem_of_cons); [done|]. by apply Hno.
Qed.

Lemma mark_native_names_lookup types (names : list string) (h : ClassTable) c :
  foldl (λ h classname,
           match get_type types (c_str classname) with
           | None => h
           | Some type => mark_reachable_by_classname_type (Some type) false h
           end) h names !! c
  = if decide (c ∈ types ∧ c ∈ c_str <$> names)
    then cascade (ref_by_string false) <$> h !! c else h !! c.
Proof.
  by rewrite <- mark_by_names_lookup.
Qed.

(** X22.  Without an application directory nothing is read and nothing is
    marked; with one, the names of the manifest, of the layouts and of the
    native libraries are treated alike: a class is marked by name, not from
    code, with cascade, exactly when its descriptor is a known type and is
    the C string of a name from one of the three sources, and every other
    class is left as it was. *)
Theorem mark_apk_classes_sources (readers : ApkReaders) (types : gset string)
    (apk_dir : string) (h : ClassTable) (c : string) :
  (apk_dir = "" → mark_apk_classes readers types apk_dir h = h)
  ∧ (apk_dir ≠ "" →
     mark_apk_classes readers types apk_dir h !! c
     = if decide (c ∈ types
                  ∧ c ∈ c_str <$>
                        (get_manifest_classes readers
                           (apk_dir +:+ "/AndroidManifest.xml")
                         ++ get_layout_classes readers apk_dir
                         ++ get_native_classes readers apk_dir))
       then cascade (ref_by_string false) <$> h !! c else h !! c).
Proof.
  split.
  - intros ->. done.
  - intros Hdir. unfold mark_apk_classes.
    rewrite decide_False by (by destruct apk_dir).
    rewrite mark_native_names_lookup, !mark_by_names_lookup.
    repeat case_decide;
      repeat match goal with
             | H : context [_ <$> (_ ++ _)] |- _ => rewrite fmap_app in H
             | H : context [_ ∈ _ ++ _] |- _ => rewrite elem_of_app in H
             end;
      try tauto;
      destruct (h !! c) as [cls|]; simpl; try done; f_equal;
      rewrite ?(cascade_idemp _ _ (ref_by_string_twice false)); done.
Qed.

(* ===================================================================== *)
(** ** The further statements on concrete programs *)
(* ===================================================================== *)

Lemma chain_table_super_B : super_of chain_table "LB;" "LA;".
Proof. reflexivity. Qed.

Lemma chain_table_acc_scope c :
  c ∈ ["LB;"; "LA;"] → Acc (λ p c, super_of chain_table c p) c.
Proof.
  intros [->|[->|[]%elem_of_nil]%elem_of_cons]%elem_of_cons.
  - exact chain_table_acc.
  - exact (Acc_inv chain_table_acc chain_table_super_B).
Qed.

Lemma chain_table_reaches_B : reaches chain_table {["LA;"]} "LB;".
Proof.
  exists "LA;". split; [|by apply elem_of_singleton].
  eapply rtc_l; [exact chain_table_super_B | reflexivity].
Qed.

Lemma mark_reachable_by_classname_cascades_witness :
  entity_rstate (mark_reachable_by_classname (Some "LFoo1;") true foo_table)
                (EDMethod "LFoo1;" 0)
  = ref_by_string true <$> entity_rstate foo_table (EDMethod "LFoo1;" 0)
  ∧ entity_rstate (mark_reachable_by_classname (Some "LFoo1;") true foo_table)
                  (EDMethod "LFoo2;" 0)
    = entity_rstate foo_table (EDMethod "LFoo2;" 0).
Proof.
  destruct (mark_reachable_by_classname_cascades foo_table "LFoo1;" true)
    as (Hin & Hout & _).
  split; [by apply Hin | by apply Hout].
Defined.

Lemma mark_reachable_by_classname_resolves_witness :
  mark_reachable_by_classname_str keep_ctx "Ljava/lang/Object;" false
  = g_classes keep_ctx
  ∧ mark_reachable_by_classname_str keep_ctx "Lcom/example/Gone;" false
    = g_classes keep_ctx
  ∧ mark_reachable_by_classname_str keep_ctx "Lcom/example/Keep;" false
    = mark_reachable_by_classname (Some "Lcom/example/Keep;") false
                                  (g_classes keep_ctx).
Proof.
  split_and!.
  - destruct (mark_reachable_by_classname_resolves keep_ctx "Ljava/lang/Object;"
                false) as (_ & Hnone & _).
    apply Hnone. reflexivity.
  - destruct (mark_reachable_by_classname_resolves keep_ctx "Lcom/example/Gone;"
                false) as (Hunknown & _).
    apply Hunknown. intros Hin. vm_compute in Hin. discriminate Hin.
  - destruct (mark_reachable_by_classname_resolves keep_ctx "Lcom/example/Keep;"
                false) as (_ & _ & Hknown & _).
    apply Hknown.
    + vm_compute. reflexivity.
    + vm_compute. eauto.
Defined.

Lemma run_marks_set_witness :
  run_marks [MarkDirect (Some "LFoo1;"); MarkBySeed (Some "LFoo2;");
             MarkDirect (Some "LFoo1;")] foo_table
  = run_marks [MarkBySeed (Some "LFoo2;"); MarkDirect (Some "LFoo1;")] foo_table.
Proof.
  apply run_marks_set. intros op. rewrite !elem_of_cons. tauto.
Defined.

Lemma keep_annotated_classes_exact_witness :
  entity_rstate (keep_annotated_classes foo_scope {["Lcom/example/Keep;"]}
                   foo_annos foo_table) (EClass "LFoo1;")
  = entity_rstate foo_table (EClass "LFoo1;")
  ∧ entity_rstate (keep_annotated_classes foo_scope {["Lcom/example/Keep;"]}
                     foo_annos foo_table) (ESField "LFoo1;" 0)
    = Some (ref_by_type fresh_rstate).
Proof.
  split.
  - apply (keep_annotated_classes_exact foo_scope {["Lcom/example/Keep;"]}
             foo_annos foo_table (EClass "LFoo1;")).
    by left.
  - vm_compute. reflexivity.
Defined.

Lemma recompute_marks_native_owners_witness :
  recompute_classes_reachable_from_code foo_native foo_scope foo_table !! "LFoo2;"
  = Some (cascade (ref_by_string true) foo_class)
  ∧ recompute_classes_reachable_from_code foo_native foo_scope foo_table !! "LFoo1;"
    = Some foo_class.
Proof.
  destruct (recompute_marks_native_owners foo_native foo_scope foo_table)
    as (Hyes & Hno & _).
  split.
  - apply Hyes; [reflexivity | by right; left |].
    right. exists 0. split; [simpl; lia | reflexivity].
  - apply Hno; [reflexivity|]. intros [_ [[i [_ Hi]]|[i [_ Hi]]]];
      vm_compute in Hi; discriminate Hi.
Defined.

Lemma close_reflected_packages_closure_witness :
  ∃ set' h',
    close_reflected_packages 3 ["LB;"; "LA;"] {["LA;"]} chain_table
    = Some (set', h')
    ∧ h' !! "LB;" = cascade (ref_by_string false) <$> chain_table !! "LB;".
Proof.
  destruct (close_reflected_packages 3 ["LB;"; "LA;"] {["LA;"]} chain_table)
    as [[set' h']|] eqn:Hclose; [|vm_compute in Hclose; discriminate Hclose].
  exists set', h'. split; [reflexivity|].
  apply (close_reflected_packages_closure _ _ _ _ _ _ Hclose).
  - by left.
  - exact chain_table_reaches_B.
Defined.

Lemma close_reflected_packages_returns_witness :
  ∃ fuel, ∀ set h0, same_hierarchy chain_table h0 →
    is_Some (close_reflected_packages fuel ["LB;"; "LA;"] set h0).
Proof.
  apply close_reflected_packages_returns. exact chain_table_acc_scope.
Defined.

Lemma scope_loops_depend_on_set_witness :
  keep_class_members foo_scope ["LFoo1;Bar"] foo_table
  = keep_class_members ["LFoo2;"; "LFoo1;"; "LFoo2;"] ["LFoo1;Bar"] foo_table.
Proof.
  destruct (scope_loops_depend_on_set foo_scope ["LFoo2;"; "LFoo1;"; "LFoo2;"]
              foo_table ∅ foo_annos ["LFoo1;Bar"] [] [] [] (λ _ _, false)
              foo_native) as (_ & Hkcm & _); [|exact Hkcm].
  intros c. unfold foo_scope. rewrite !elem_of_cons. tauto.
Defined.

Lemma keep_methods_lists_witness :
  keep_methods ["Lcom/example/Main;"] ["onCreate"; "run"; "onCreate"]
               activity_table
  = keep_methods ["Lcom/example/Main;"] ["run"; "onCreate"] activity_table.
Proof.
  apply (keep_methods_lists ["Lcom/example/Main;"]
           ["onCreate"; "run"; "onCreate"] ["run"; "onCreate"] activity_table).
  intros m. rewrite !elem_of_cons. tauto.
Defined.

Lemma keep_class_members_edges_witness :
  keep_class_members foo_scope (["FooBar"] ++ "LFoo1;count" :: ["LFoo1;Bar"])
                     foo_table !! "LFoo1;"
  = keep_class_members foo_scope (["FooBar"] ++ ["LFoo1;count"]) foo_table
      !! "LFoo1;"
  ∧ keep_class_members foo_scope ["LA;Bar"] chain_table !! "LA;"
    = Some (class_extending "Ljava/lang/Object;").
Proof.
  split.
  - apply (keep_class_members_edges foo_scope foo_table).
    by exists "", "count".
  - by apply (keep_class_members_edges foo_scope chain_table).
Defined.

Lemma init_seed_classes_unresolved_witness :
  init_seed_classes (Some (["com.example.Keep"] ++ "com.example.Gone" :: []))
                    keep_ctx
  = init_seed_classes (Some (["com.example.Keep"] ++ [])) keep_ctx.
Proof.
  apply (init_seed_classes_unresolved keep_ctx).
  intros Hin. vm_compute in Hin. discriminate Hin.
Defined.

Lemma init_seed_classes_files_witness :
  init_seed_classes (Some ["com.example.Keep"; "java.lang.Object"]) keep_ctx
  = init_seed_classes (Some ["java.lang.Object"; "com.example.Keep"]) keep_ctx.
Proof.
  destruct (init_seed_classes_files ["com.example.Keep"; "java.lang.Object"]
              ["java.lang.Object"; "com.example.Keep"] keep_ctx) as (Hperm & _).
  apply Hperm. apply perm_swap.
Defined.

Lemma mark_cls_patterns_any_match_witness :
  mark_cls_patterns (λ _ _, true) ["Lcom/example/Keep;"]
                    ["Lcom/example/*"; "Lcom/**"] (g_classes keep_ctx)
    !! "Lcom/example/Keep;"
  = cascade ref_by_type <$> g_classes keep_ctx !! "Lcom/example/Keep;".
Proof.
  apply (mark_cls_patterns_any_match (λ _ _, true) ["Lcom/example/Keep;"]
           ["Lcom/example/*"; "Lcom/**"] (g_classes keep_ctx)).
  - by left.
  - exists "Lcom/example/*". split; [by left | reflexivity].
Defined.


Lemma init_reachable_classes_returns_witness :
  ∃ fuel, ∀ readers wild annos native config rules no_opt,
    is_Some (init_reachable_classes fuel readers wild annos native
               ["LB;"; "LA;"] config rules no_opt chain_ctx).
Proof.
  apply init_reachable_classes_returns. exact chain_table_acc_scope.
Defined.

Lemma init_reachable_classes_empty_config_witness :
  ∃ fuel, ∀ readers wild annos,
    init_reachable_classes fuel readers wild annos (λ _, false) ["LB;"; "LA;"]
      PassConfig.empty [] ∅ chain_ctx = Some chain_ctx.
Proof.
  apply init_reachable_classes_empty_config. exact chain_table_acc_scope.
Defined.

Lemma cyclic_table_reaches : reaches cyclic_table {["LB;"]} "LA;".
Proof.
  exists "LB;". split; [|by apply elem_of_singleton].
  eapply rtc_l; [|reflexivity]. reflexivity.
Qed.

Lemma in_reflected_pkg_answers_witness :
  in_reflected_pkg_returns cyclic_table (Some "LA;") {["LB;"]} true.
Proof.
  apply (in_reflected_pkg_answers cyclic_table {["LB;"]} "LA;").
  exact cyclic_table_reaches.
Defined.

Lemma mark_only_touches_one_entity_witness :
  entity_rstate (mark_only_reachable_directly_at (EDMethod "LFoo1;" 0) foo_table)
                (EDMethod "LFoo1;" 0)
  = Some (ref_by_type fresh_rstate)
  ∧ entity_rstate (mark_only_reachable_directly_at (EDMethod "LFoo1;" 0) foo_table)
                  (EClass "LFoo1;")
    = entity_rstate foo_table (EClass "LFoo1;")
  ∧ entity_rstate (mark_only_reachable_directly_at (EDMethod "LFoo1;" 0) foo_table)
                  (EVMethod "LFoo1;" 0)
    = entity_rstate foo_table (EVMethod "LFoo1;" 0).
Proof.
  destruct (mark_only_touches_one_entity (EDMethod "LFoo1;" 0) foo_table
              fresh_rstate eq_refl) as [[Hself Hother] _].
  split_and!; [exact Hself | by apply Hother..].
Defined.

Lemma mark_apk_classes_sources_witness :
  mark_apk_classes chain_readers (g_types chain_ctx) "" chain_table = chain_table
  ∧ mark_apk_classes chain_readers (g_types chain_ctx) "apk" chain_table !! "LA;"
    = Some (cascade (ref_by_string false)
              (class_extending "Ljava/lang/Object;")).
Proof.
  split.
  - by apply (mark_apk_classes_sources chain_readers (g_types chain_ctx) ""
                chain_table "LA;").
  - destruct (mark_apk_classes_sources chain_readers (g_types chain_ctx) "apk"
                chain_table "LA;") as [_ Hdir].
    rewrite Hdir by done. vm_compute. reflexivity.
Defined.
